(** * capacitor-tus-client: the Android upload session coordinator

    A shallow embedding of
    - [CapacitorTusClientConfig]   (the process-wide chunk size setting),
    - [CapacitorTusClientRunnable] (one upload session and its transfer loop),
    - [CapacitorTusClientPlugin]   (the registry, the worker pool and the
      bridge commands upload / pause / resume / abort),
    followed by the properties of the event stream, of the chunk size, of the
    metadata and of the commands.

    Java references of type [String] may be null: they are [option string],
    [None] being null.  A [Map<String, String>] is a [gmap] from keys to such
    references.  Java [int] and [long] values are in [Z]; the plugin performs
    no integer arithmetic on them, its only arithmetic is the floating point
    progress percentage, computed on binary64 floats.

    The session flags are shared between the bridge thread (commands) and the
    pool threads (the transfer loop).  The run of a session is therefore cut
    into atomic steps at every access to shared state, every notification and
    every call of the transfer engine; a schedule interleaves these steps with
    the commands.  What the platform and the transfer engine (tus-java-client,
    not part of the repository) answer is part of the schedule. *)

From Stdlib Require Import ZArith Floats Uint63 Lia Bool.
From stdpp Require Import base option list gmap strings.

Open Scope string_scope.
Open Scope Z_scope.

(** A Java [String] reference. *)
Abbreviation JString := (option string).

(** What string conversion ([String.format "%s"], [+]) prints for a
    reference. *)
Definition str (s : JString) : string := default "null" s.

(** A [Map<String, String>], also the string view of a [JSObject]: the value
    at a key is what [getString(key)] returns. *)
Abbreviation JMap := (gmap string JString).

(** ** The platform *)

(** [new URL(spec)] is the JDK's: [malformedURL spec] is the message of the
    [MalformedURLException] it throws, if it throws.  [availableProcessors] is
    [Runtime.getRuntime().availableProcessors()], the size of the pool. *)
Class Platform := {
  malformedURL : string → JString;
  availableProcessors : nat
}.

(** ** The transfer engine, seen from the session *)

(** [TusUpload]: the size is a [long] field, zero until [setSize] is called. *)
Record TusUpload := {
  size : Z;
  fingerprint : string;
  metadata : JMap
}.

(** [TusUploader]: [chunkSize] is [None] until this code calls
    [setChunkSize]. *)
Record TusUploader := {
  uploadURL : string;
  offset : Z;
  u_chunkSize : option Z
}.

(** [TusClient] as configured by the constructor. *)
Record TusClient := {
  uploadCreationURL : string;
  headers : JMap
}.

(** An exception of the engine ([ProtocolException] or [IOException]) with its
    [getMessage()], and the decision of [TusExecutor.makeAttempts] to make
    another attempt after it. *)
Record Failure := {
  message : JString;
  retry : bool
}.

(** What the environment answers to the step a pool thread takes. *)
Inductive Response :=
| Silent                                  (* a step without a call outside *)
| Created (off : Z) (url : string)        (* resumeOrCreateUpload returns *)
| ChunkSent (n : Z)                       (* uploadChunk returns n *)
| Finished                                (* finish returns *)
| Slept                                   (* Thread.sleep(100) returns *)
| Interrupted                             (* Thread.sleep(100) is interrupted *)
| Threw (f : Failure).                    (* the engine call throws *)

Inductive EngineCall :=
| ResumeOrCreateUpload
| SetChunkSize (c : Z)
| UploadChunk
| Finish.

(** ** Events *)

Inductive Event :=
| onStart (uploadId : string) (context : JMap)
| onProgress (uploadId : string) (progress : float)
             (bytesUploaded totalBytes : Z) (context : JMap)
| onSuccess (uploadId : string) (uploadUrl : string) (context : JMap)
| onError (uploadId : string) (error : JString) (context : JMap).

Inductive Caller :=
| Bridge                   (* the thread that runs the plugin methods *)
| Worker (i : nat).        (* the pool thread running task i *)

(** What is observable: the notifications sent to the listeners and the calls
    made to the transfer engine, in the order they happen. *)
Inductive Obs :=
| Notify (e : Event)
| Call (who : Caller) (uploadId : string) (c : EngineCall).

(** ** CapacitorTusClientConfig *)

Module Config.

Record t := { chunkSize : Z }.

(** [private int chunkSize = 6 * 1024 * 1024;] *)
Definition new : t := {| chunkSize := 6 * 1024 * 1024 |}.

(** [getInstance()] on the static field [instance]: the configuration and
    the field afterwards. *)
Definition getInstance (instance : option t) : t * option t :=
  match instance with
  | None => (new, Some new)
  | Some c => (c, Some c)
  end.

Definition getChunkSize (c : t) : Z := chunkSize c.

Definition setChunkSize (chunkSize : Z) (c : t) : t :=
  {| chunkSize := chunkSize |}.

End Config.

(** ** CapacitorTusClientRunnable *)

(** [(double) x] for a [long]: rounding to nearest. *)
Definition double_of_long (x : Z) : float :=
  if x =? - 2 ^ 63 then PrimFloat.opp 9223372036854775808%float
  else if x <? 0 then PrimFloat.opp (PrimFloat.of_uint63 (Uint63.of_Z (- x)))
  else PrimFloat.of_uint63 (Uint63.of_Z x).

(** Neither a finite number: NaN or an infinity. *)
Definition non_finite (x : float) : bool :=
  match Prim2SF x with
  | S754_nan | S754_infinity _ => true
  | _ => false
  end.

(** A Java [long]. *)
Definition is_long (x : Z) : Prop := - 2 ^ 63 ≤ x < 2 ^ 63.

(** What the Java language and IEEE 754 define the cast [(double) x] of a
    [long] to be: the binary64 number nearest to the integer, ties to even.
    This is the specification [double_of_long] is compared with. *)
Definition nearest_double (x : Z) : spec_float :=
  binary_normalize prec emax x 0 false.

(** Where a pool thread stands in [run()], between two atomic steps. *)
Inductive Pc :=
| Queued                  (* submitted, run() not entered *)
| AtStart                 (* isRunning set; next: notify onStart *)
| AtAttempt               (* makeAttempt: next resumeOrCreateUpload *)
| AtChunkSize             (* next: read the setting, setChunkSize *)
| AtPause                 (* next: while (isPaused && !shouldFinish) *)
| AtProgress              (* next: getOffset, notify onProgress *)
| AtChunk                 (* next: uploadChunk() *)
| AtLoopCond (n : Z)      (* next: n > -1 && !shouldFinish *)
| AtFinish                (* next: uploader.finish() *)
| AtSuccess               (* makeAttempts returned; next: notify onSuccess *)
| AtError (msg : JString) (* exception caught; next: notify onError *)
| AtExit                  (* next: isRunning = false *)
| Done.                   (* run() returned *)

Module Runnable.

Record t := {
  upload : TusUpload;
  uploader : option TusUploader;
  client : TusClient;
  uploadId : string;
  shouldFinish : bool;
  isRunning : bool;
  isPaused : bool
}.

Definition set_uploader (u : option TusUploader) (e : t) : t :=
  {| upload := upload e; uploader := u; client := client e;
     uploadId := uploadId e; shouldFinish := shouldFinish e;
     isRunning := isRunning e; isPaused := isPaused e |}.

Definition set_shouldFinish (b : bool) (e : t) : t :=
  {| upload := upload e; uploader := uploader e; client := client e;
     uploadId := uploadId e; shouldFinish := b;
     isRunning := isRunning e; isPaused := isPaused e |}.

Definition set_isRunning (b : bool) (e : t) : t :=
  {| upload := upload e; uploader := uploader e; client := client e;
     uploadId := uploadId e; shouldFinish := shouldFinish e;
     isRunning := b; isPaused := isPaused e |}.

Definition set_isPaused (b : bool) (e : t) : t :=
  {| upload := upload e; uploader := uploader e; client := client e;
     uploadId := uploadId e; shouldFinish := shouldFinish e;
     isRunning := isRunning e; isPaused := b |}.

(** The constructor.  [available] is what [inputStream.available()]
    returns, [None] when it throws [IOException].  The result is the
    message of the [MalformedURLException] or the new session. *)
Definition new `{Platform} (available : option Z) (fileName : JString)
    (uploadId endpoint : string) (metadata headers : JMap) : JString + t :=
  match malformedURL endpoint with
  | Some msg => inl (Some msg)
  | None =>
      let size := match available with Some size => size | None => 0 end in
      let fingerprint := str fileName +:+ "-" +:+ uploadId in
      let metadata := <["filename" := fileName]> metadata in
      inr {| upload := {| size := size; fingerprint := fingerprint;
                          metadata := metadata |};
             uploader := None;
             client := {| uploadCreationURL := endpoint;
                          headers := headers |};
             uploadId := uploadId;
             shouldFinish := false;
             isRunning := false;
             isPaused := false |}
  end.

Definition pause (e : t) : t := set_isPaused true e.

Definition resume (e : t) : t := set_isPaused false e.

(** The method [isRunning()]. *)
Definition isRunning' (e : t) : bool := isRunning e && negb (isPaused e).

(** [finish()]: [fin] is what [uploader.finish()] does if it is called,
    [None] for a return and [Some msg] for an exception with that message.
    The result is the session, the calls made to the engine and the
    exception thrown, if any. *)
Definition finish (fin : option JString) (e : t)
    : t * list EngineCall * option JString :=
  if isRunning e then (set_shouldFinish true e, [], None)
  else match uploader e with
       | Some _ => (e, [Finish], fin)
       | None => (e, [], None)
       end.

(** [((double) bytesUploaded / totalBytes) * 100] *)
Definition progress (bytesUploaded totalBytes : Z) : float :=
  PrimFloat.mul
    (PrimFloat.div (double_of_long bytesUploaded) (double_of_long totalBytes))
    100%float.

(** The result of one atomic step of a pool thread: the session, the
    static configuration field, where the thread stands next and what was
    observable. *)
Record Result := {
  session : t;
  instance : option Config.t;
  pc : Pc;
  obs : list Obs
}.

(** After an exception of the engine inside [makeAttempts]: another attempt
    or the exception reaches the [catch] of [run()]. *)
Definition thrown (f : Failure) : Pc :=
  if retry f then AtAttempt else AtError (message f).

(** One atomic step of [run()] (with [makeAttempts] and [makeAttempt]
    inlined) taken by task [i]; [None] when the thread cannot move: the
    answer is not one the pending call can give, or the run is over. *)
Definition step (i : nat) (inst : option Config.t) (r : Response) (at_ : Pc)
    (e : t) : option Result :=
  let id := uploadId e in
  let ret e' inst' pc' obs' :=
    Some {| session := e'; instance := inst'; pc := pc'; obs := obs' |} in
  match at_, r with
  | Queued, Silent =>
      ret (set_isRunning true e) inst AtStart []
  | AtStart, Silent =>
      ret e inst AtAttempt [Notify (onStart id (metadata (upload e)))]
  | AtAttempt, Created off url =>
      ret (set_uploader
             (Some {| uploadURL := url; offset := off; u_chunkSize := None |}) e)
          inst AtChunkSize [Call (Worker i) id ResumeOrCreateUpload]
  | AtAttempt, Threw f =>
      ret e inst (thrown f) [Call (Worker i) id ResumeOrCreateUpload]
  | AtChunkSize, Silent =>
      match uploader e with
      | Some u =>
          let (config, inst') := Config.getInstance inst in
          let chunkSize := Config.getChunkSize config in
          ret (set_uploader
                 (Some {| uploadURL := uploadURL u; offset := offset u;
                          u_chunkSize := Some chunkSize |}) e)
              inst' AtPause [Call (Worker i) id (SetChunkSize chunkSize)]
      | None => None
      end
  | AtPause, Silent =>
      if isPaused e && negb (shouldFinish e) then None
      else ret e inst AtProgress []
  | AtPause, Slept =>
      if isPaused e && negb (shouldFinish e) then ret e inst AtPause []
      else None
  | AtPause, Interrupted =>
      if isPaused e && negb (shouldFinish e) then ret e inst AtSuccess []
      else None
  | AtProgress, Silent =>
      match uploader e with
      | Some u =>
          let totalBytes := size (upload e) in
          let bytesUploaded := offset u in
          ret e inst AtChunk
              [Notify (onProgress id (progress bytesUploaded totalBytes)
                         bytesUploaded totalBytes (metadata (upload e)))]
      | None => None
      end
  | AtChunk, ChunkSent n =>
      match uploader e with
      | Some u =>
          let off := if n >? -1 then offset u + n else offset u in
          ret (set_uploader
                 (Some {| uploadURL := uploadURL u; offset := off;
                          u_chunkSize := u_chunkSize u |}) e)
              inst (AtLoopCond n) [Call (Worker i) id UploadChunk]
      | None => None
      end
  | AtChunk, Threw f =>
      ret e inst (thrown f) [Call (Worker i) id UploadChunk]
  | AtLoopCond n, Silent =>
      if (n >? -1) && negb (shouldFinish e) then ret e inst AtPause []
      else ret e inst AtFinish []
  | AtFinish, Finished =>
      ret e inst AtSuccess [Call (Worker i) id Finish]
  | AtFinish, Threw f =>
      ret e inst (thrown f) [Call (Worker i) id Finish]
  | AtSuccess, Silent =>
      match uploader e with
      | Some u =>
          ret e inst AtExit
              [Notify (onSuccess id (uploadURL u) (metadata (upload e)))]
      | None => None
      end
  | AtError msg, Silent =>
      ret e inst AtExit [Notify (onError id msg (metadata (upload e)))]
  | AtExit, Silent =>
      ret (set_isRunning false e) inst Done []
  | _, _ => None
  end.

End Runnable.

(** ** CapacitorTusClientPlugin *)

(** The [options] object of an upload call.  [o_headers] and [o_metadata] are
    the string views of the [JSObject]s, [None] when the key is absent;
    [o_chunkSize] is what [getInteger("chunkSize", null)] returns. *)
Record UploadOptions := {
  o_uri : JString;
  o_endpoint : JString;
  o_headers : option JMap;
  o_metadata : option JMap;
  o_chunkSize : option Z
}.

(** The cursor a content query returns: the index of the column
    [OpenableColumns.DISPLAY_NAME] ([-1] when there is none), whether there is
    a first row, and the string in that column of that row. *)
Record Cursor := {
  getColumnIndex : Z;
  moveToFirst : bool;
  getString : JString
}.

Inductive StreamResult :=
| Opened
| NullStream
| OpenThrew (msg : JString).

(** What the platform answers during one upload call. *)
Record UploadEnv := {
  openInputStream : StreamResult;
  available : option Z;
  query : option Cursor;
  randomUUID : string
}.

Inductive JSValue :=
| JSBool (b : bool)
| JSString (s : string).

(** How a bridge call ends: [call.resolve(data)] or [call.reject(msg)]. *)
Inductive CallResult :=
| Resolved (data : list (string * JSValue))
| Rejected (msg : string).

(** A runnable submitted to the pool and where its thread stands. *)
Record Task := {
  t_id : string;
  t_pc : Pc
}.

Definition queued (t : Task) : bool :=
  match t_pc t with Queued => true | _ => false end.

Definition active (t : Task) : bool :=
  match t_pc t with Queued | Done => false | _ => true end.

Module Plugin.

(** The static field [CapacitorTusClientConfig.instance], the fields
    [executorsMap] and [pool] of the plugin, and what has been observed. *)
Record State := {
  instance : option Config.t;
  executorsMap : gmap string Runnable.t;
  pool : list Task;
  trace : list Obs
}.

Definition init : State :=
  {| instance := None; executorsMap := ∅; pool := []; trace := [] |}.

Definition set_instance (c : option Config.t) (st : State) : State :=
  {| instance := c; executorsMap := executorsMap st; pool := pool st;
     trace := trace st |}.

Definition set_executor (id : string) (e : Runnable.t) (st : State) : State :=
  {| instance := instance st;
     executorsMap := <[id := e]> (executorsMap st);
     pool := pool st; trace := trace st |}.

Definition observe (o : list Obs) (st : State) : State :=
  {| instance := instance st; executorsMap := executorsMap st;
     pool := pool st; trace := trace st ++ o |}.

(** [pool.submit(executor)] *)
Definition submit (id : string) (st : State) : State :=
  {| instance := instance st; executorsMap := executorsMap st;
     pool := pool st ++ [{| t_id := id; t_pc := Queued |}];
     trace := trace st |}.

Definition getFileName (query : option Cursor) : JString :=
  match query with
  | Some cursor =>
      let nameIndex := getColumnIndex cursor in
      if negb (nameIndex =? -1) && moveToFirst cursor
      then getString cursor
      else Some "unknown_file"
  | None => Some "unknown_file"
  end.

Definition upload `{Platform} (options : option UploadOptions)
    (env : UploadEnv) (st : State) : State * CallResult :=
  match options with
  | None => (st, Rejected "Missing options for the upload.")
  | Some options =>
  match o_uri options with
  | None => (st, Rejected "The 'uri' provided is null or empty.")
  | Some fileUri =>
  if String.eqb fileUri ""
  then (st, Rejected "The 'uri' provided is null or empty.")
  else
  (* Uri.parse does not return null *)
  match o_endpoint options with
  | None => (st, Rejected "Missing endpoint in options.")
  | Some endpoint =>
  let (config, _) := Config.getInstance (instance st) in
  let config :=
    match o_chunkSize options with
    | Some customChunkSize =>
        if customChunkSize >? 0
        then Config.setChunkSize customChunkSize config
        else config
    | None => config
    end in
  let st := set_instance (Some config) st in
  (* the two loops copy the string view of each JSObject *)
  let headers := default ∅ (o_headers options) in
  let metadata := default ∅ (o_metadata options) in
  match openInputStream env with
  | OpenThrew msg => (st, Rejected ("Error creating upload: " +:+ str msg))
  | NullStream => (st, Rejected "Unable to open file stream for the Uri.")
  | Opened =>
  let uploadId := randomUUID env in
  match Runnable.new (available env) (getFileName (query env))
                     uploadId endpoint metadata headers with
  | inl msg => (st, Rejected ("Error creating upload: " +:+ str msg))
  | inr executor =>
      let st := set_executor uploadId executor st in
      let st := if negb (Runnable.isRunning' executor)
                then submit uploadId st else st in
      (st, Resolved [("uploadId", JSString uploadId)])
  end end end end end.

Definition pause (uploadId : JString) (st : State) : State * CallResult :=
  match uploadId with
  | None => (st, Rejected "Invalid or missing uploadId")
  | Some id =>
  match executorsMap st !! id with
  | None => (st, Rejected "Invalid or missing uploadId")
  | Some executor =>
      let st := set_executor id (Runnable.pause executor) st in
      (st, Resolved [("success", JSBool true);
                     ("message", JSString "Upload paused successfully")])
  end end.

Definition resume (uploadId : JString) (st : State) : State * CallResult :=
  match uploadId with
  | None => (st, Rejected "Invalid or missing uploadId")
  | Some id =>
  match executorsMap st !! id with
  | None => (st, Rejected "Invalid or missing uploadId")
  | Some executor =>
      let executor := Runnable.resume executor in
      let st := set_executor id executor st in
      let st := if negb (Runnable.isRunning' executor)
                then submit id st else st in
      (st, Resolved [("success", JSBool true);
                     ("message", JSString "Upload resumed successfully")])
  end end.

Definition abort (uploadId : JString) (fin : option JString) (st : State)
    : State * CallResult :=
  match uploadId with
  | None => (st, Rejected "Invalid or missing uploadId")
  | Some id =>
  match executorsMap st !! id with
  | None => (st, Rejected "Invalid or missing uploadId")
  | Some executor =>
      let '(executor, calls, thrown) := Runnable.finish fin executor in
      let st := set_executor id executor st in
      let st := observe (Call Bridge id <$> calls) st in
      match thrown with
      | None => (st, Resolved [])
      | Some msg => (st, Rejected ("Error aborting upload: " +:+ str msg))
      end
  end end.

(** Modelled from the spec: the executor behind [pool], created by
    [Executors.newFixedThreadPool(availableProcessors())], is the JDK's and
    not part of the repository.  The spec gives it as a bounded pool of
    worker threads, each running at most one session at a time, whose size
    is the number of available execution units: a queued task enters
    [run()] only while fewer than [availableProcessors] tasks are being run.
    No order is imposed among the queued tasks. *)
Definition may_start `{Platform} (pool : list Task) : bool :=
  bool_decide (length (filter (λ t, active t = true) pool)
                 < availableProcessors)%nat.

(** Task [i] takes its next atomic step, the environment answering [r]. *)
Definition work `{Platform} (i : nat) (r : Response) (st : State) : State :=
  match pool st !! i with
  | None => st
  | Some task =>
  match executorsMap st !! t_id task with
  | None => st
  | Some e =>
  if queued task && negb (may_start (pool st)) then st
  else
  match Runnable.step i (instance st) r (t_pc task) e with
  | None => st
  | Some res =>
      {| instance := Runnable.instance res;
         executorsMap := <[t_id task := Runnable.session res]> (executorsMap st);
         pool := <[i := {| t_id := t_id task; t_pc := Runnable.pc res |}]> (pool st);
         trace := trace st ++ Runnable.obs res |}
  end end end.

End Plugin.

(** ** Schedules *)

Inductive Action :=
| CallUpload (options : option UploadOptions) (env : UploadEnv)
| CallPause (uploadId : JString)
| CallResume (uploadId : JString)
| CallAbort (uploadId : JString) (fin : option JString)
| Work (i : nat) (r : Response).

Definition step `{Platform} (st : Plugin.State) (a : Action) : Plugin.State :=
  match a with
  | CallUpload options env => (Plugin.upload options env st).1
  | CallPause uploadId => (Plugin.pause uploadId st).1
  | CallResume uploadId => (Plugin.resume uploadId st).1
  | CallAbort uploadId fin => (Plugin.abort uploadId fin st).1
  | Work i r => Plugin.work i r st
  end.

Definition exec `{Platform} (sched : list Action) (st : Plugin.State)
    : Plugin.State :=
  foldl step st sched.

(** ** Reading a trace *)

Inductive Kind := KStart | KProgress | KSuccess | KError.

Definition kind (e : Event) : Kind :=
  match e with
  | onStart _ _ => KStart
  | onProgress _ _ _ _ _ => KProgress
  | onSuccess _ _ _ => KSuccess
  | onError _ _ _ => KError
  end.

Definition event_id (e : Event) : string :=
  match e with
  | onStart id _ | onProgress id _ _ _ _ | onSuccess id _ _ | onError id _ _ => id
  end.

Definition event_context (e : Event) : JMap :=
  match e with
  | onStart _ c | onProgress _ _ _ _ c | onSuccess _ _ c | onError _ _ c => c
  end.

(** The events of a trace that carry the upload id [id], and their kinds. *)
Fixpoint events_of (id : string) (tr : list Obs) : list Event :=
  match tr with
  | [] => []
  | Notify e :: tr =>
      if String.eqb (event_id e) id then e :: events_of id tr
      else events_of id tr
  | Call _ _ _ :: tr => events_of id tr
  end.

Definition kinds (id : string) (tr : list Obs) : list Kind :=
  kind <$> events_of id tr.

(** The order onStart, onProgress*, one of onSuccess / onError, as an
    automaton over the kinds: nothing seen yet, started, ended by a terminal
    event, or out of order. *)
Inductive Order := Fresh | Started | Ended | Broken.

Definition next (o : Order) (k : Kind) : Order :=
  match o, k with
  | Fresh, KStart => Started
  | Started, KProgress => Started
  | Started, (KSuccess | KError) => Ended
  | _, _ => Broken
  end.

Definition order (ks : list Kind) : Order := foldl next Fresh ks.

Definition terminal (k : Kind) : bool :=
  match k with KSuccess | KError => true | _ => false end.

(** What the events of a session must have reached when its only thread
    stands at a given place. *)
Definition phase (at_ : Pc) : Order :=
  match at_ with
  | Queued | AtStart => Fresh
  | AtExit | Done => Ended
  | _ => Started
  end.

(** The calls of [uploadChunk] and of [resumeOrCreateUpload] made by task
    [i]. *)
Definition calls_by (c : EngineCall) (i : nat) (o : Obs) : bool :=
  match o, c with
  | Call (Worker j) _ UploadChunk, UploadChunk => Nat.eqb i j
  | Call (Worker j) _ ResumeOrCreateUpload, ResumeOrCreateUpload => Nat.eqb i j
  | _, _ => false
  end.

Definition chunks_by (i : nat) (tr : list Obs) : nat :=
  length (filter (λ o, calls_by UploadChunk i o = true) tr).

Definition attempts_by (i : nat) (tr : list Obs) : nat :=
  length (filter (λ o, calls_by ResumeOrCreateUpload i o = true) tr).

(** The chunks task [i] sends, attempt by attempt: the calls of
    [uploadChunk()] it makes before its next call of
    [resumeOrCreateUpload], then those of each attempt it starts. *)
Fixpoint chunks_per_attempt (i : nat) (o : list Obs) : list nat :=
  match o with
  | [] => [0%nat]
  | x :: o =>
      let ns := chunks_per_attempt i o in
      if calls_by ResumeOrCreateUpload i x then 0%nat :: ns
      else if calls_by UploadChunk i x then
        match ns with
        | n :: ns => S n :: ns
        | [] => [1%nat]
        end
      else ns
  end.

(** The chunks a thread can still send in the loop it is in once
    [shouldFinish] is set. *)
Definition budget (at_ : Pc) : nat :=
  match at_ with
  | AtChunkSize | AtPause | AtProgress | AtChunk => 1
  | _ => 0
  end.

(** The process-wide setting as [getInstance().getChunkSize()] reads it. *)
Definition setting (st : Plugin.State) : Z :=
  Config.getChunkSize (Config.getInstance (Plugin.instance st)).1.

(** The session registered under an id. *)
Definition registered (id : string) (st : Plugin.State) : option Runnable.t :=
  Plugin.executorsMap st !! id.

(** The chunk size the uploader of a session works with. *)
Definition chunk_of (e : Runnable.t) : option Z :=
  Runnable.uploader e ≫= u_chunkSize.

(** The same request with another [chunkSize]. *)
Definition with_chunkSize (c : option Z) (o : UploadOptions) : UploadOptions :=
  {| o_uri := o_uri o; o_endpoint := o_endpoint o; o_headers := o_headers o;
     o_metadata := o_metadata o; o_chunkSize := c |}.

(** ** Conditions on schedules *)

(** [UUID.randomUUID()] returns an id that is not in use. *)
Definition fresh_uuid (st : Plugin.State) (a : Action) : bool :=
  match a with
  | CallUpload _ env =>
      match Plugin.executorsMap st !! randomUUID env with
      | None => true
      | Some _ => false
      end
  | _ => true
  end.

(** [resume] is called on a session only while its run is executing. *)
Definition resume_while_running (st : Plugin.State) (a : Action) : bool :=
  match a with
  | CallResume (Some id) =>
      match Plugin.executorsMap st !! id with
      | None => true
      | Some e => Runnable.isRunning e
      end
  | _ => true
  end.

(** [resume] is called on the session [id] only while its run is executing;
    the other sessions are resumed at will. *)
Definition own_resume_while_running (id : string) (st : Plugin.State)
    (a : Action) : bool :=
  match a with
  | CallResume (Some id') =>
      if String.eqb id' id then
        match Plugin.executorsMap st !! id with
        | None => true
        | Some e => Runnable.isRunning e
        end
      else true
  | _ => true
  end.

(** A condition holds at every action of a schedule, in the state the action
    is taken in. *)
Fixpoint along `{Platform} (ok : Plugin.State → Action → bool)
    (st : Plugin.State) (sched : list Action) : bool :=
  match sched with
  | [] => true
  | a :: sched => ok st a && along ok (step st a) sched
  end.

(** ** Invariants of schedules *)

(** What a pause, a resume or an abort may change in a session. *)
Definition touched (e e' : Runnable.t) : Prop :=
  Runnable.upload e' = Runnable.upload e ∧
  Runnable.uploadId e' = Runnable.uploadId e ∧
  Runnable.uploader e' = Runnable.uploader e ∧
  (Runnable.shouldFinish e = true → Runnable.shouldFinish e' = true).

(** The commands on an existing session. *)
Definition bridge_command (a : Action) : bool :=
  match a with
  | CallPause _ | CallResume _ | CallAbort _ _ => true
  | _ => false
  end.

(** Every session carries the key it is registered under. *)
Definition keyed (st : Plugin.State) : Prop :=
  ∀ id e, Plugin.executorsMap st !! id = Some e → Runnable.uploadId e = id.

(** What holds of the registry, the pool and the trace as long as no session
    is submitted twice: the sessions carry their key, every id has at most
    one task, and the events of an id are where its task stands. *)
Record consistent (st : Plugin.State) : Prop := {
  ids_agree : keyed st;
  one_task : NoDup (t_id <$> Plugin.pool st);
  tasks_known : ∀ j t,
    Plugin.pool st !! j = Some t → is_Some (Plugin.executorsMap st !! t_id t);
  tasks_phase : ∀ j t,
    Plugin.pool st !! j = Some t →
    order (kinds (t_id t) (Plugin.trace st)) = phase (t_pc t);
  others_silent : ∀ id,
    id ∉ t_id <$> Plugin.pool st → kinds id (Plugin.trace st) = []
}.

(** What holds of the session [id] as long as it is not submitted twice,
    whatever happens to the other sessions: it has at most one task, and its
    events are where that task stands. *)
Record ordered_for (id : string) (st : Plugin.State) : Prop := {
  of_keyed : keyed st;
  of_known : ∀ j t,
    Plugin.pool st !! j = Some t → is_Some (Plugin.executorsMap st !! t_id t);
  of_one : ∀ i j ti tj,
    Plugin.pool st !! i = Some ti → Plugin.pool st !! j = Some tj →
    t_id ti = id → t_id tj = id → i = j;
  of_phase : ∀ j t,
    Plugin.pool st !! j = Some t → t_id t = id →
    order (kinds id (Plugin.trace st)) = phase (t_pc t);
  of_silent :
    (∀ j t, Plugin.pool st !! j = Some t → t_id t ≠ id) →
    kinds id (Plugin.trace st) = []
}.

(** What the automaton has accepted, as a shape of the sequence. *)
Definition shape (o : Order) (ks : list Kind) : Prop :=
  match o with
  | Fresh => ks = []
  | Started => ∃ n, ks = KStart :: replicate n KProgress
  | Ended =>
      ∃ n k, ks = (KStart :: replicate n KProgress ++ [k])%list ∧ terminal k = true
  | Broken => True
  end.

(** Work done after a state: what the trace has gained. *)
Definition since (st st' : Plugin.State) : list Obs :=
  drop (length (Plugin.trace st)) (Plugin.trace st').

(** What task [i] shows by an action: what the trace gains when the action
    is a step of that task. *)
Definition emitted `{Platform} (i : nat) (st : Plugin.State) (a : Action)
    : list Obs :=
  match a with
  | Work j _ => if Nat.eqb j i then since st (step st a) else []
  | _ => []
  end.

(** What task [i], one run of a session, shows in a schedule. *)
Fixpoint emitted_by `{Platform} (i : nat) (st : Plugin.State)
    (sched : list Action) : list Obs :=
  match sched with
  | [] => []
  | a :: sched => (emitted i st a ++ emitted_by i (step st a) sched)%list
  end.

(** What task [i] has shown is where its thread stands, and carries the id
    of its session. *)
Definition ran (i : nat) (st : Plugin.State) (o : list Obs) : Prop :=
  match Plugin.pool st !! i with
  | Some t =>
      order (kinds (t_id t) o) = phase (t_pc t) ∧
      ∀ ev, Notify ev ∈ o → event_id ev = t_id t
  | None => o = []
  end.

(** What a step of the schedule leaves of a session: it is still registered,
    with the upload it was created with, and the events sent with its id
    carry its metadata. *)
Definition echoed (id : string) (e : Runnable.t) (st st' : Plugin.State) : Prop :=
  ∃ o e',
    Plugin.trace st' = (Plugin.trace st ++ o)%list ∧
    Plugin.executorsMap st' !! id = Some e' ∧
    Runnable.upload e' = Runnable.upload e ∧
    ∀ ev, ev ∈ events_of id o → event_context ev = metadata (Runnable.upload e).

(** The event the thread of the session [id] has sent last when it stands
    before [uploadChunk()]. *)
Definition announced_for (id : string) (st : Plugin.State) : Prop :=
  ∀ j t e,
    Plugin.pool st !! j = Some t → t_id t = id → t_pc t = AtChunk →
    Plugin.executorsMap st !! id = Some e →
    ∃ u, Runnable.uploader e = Some u ∧
         last (events_of id (Plugin.trace st))
           = Some (onProgress id
                     (Runnable.progress (offset u) (size (Runnable.upload e)))
                     (offset u) (size (Runnable.upload e))
                     (metadata (Runnable.upload e))).

(** What a step of the schedule leaves of thread [i] when its session has
    [shouldFinish] set: the thread and the flag are still there, and the
    chunks sent are paid for by the budget or by new attempts. *)
Definition within_budget (i : nat) (t : Task) (st st' : Plugin.State) : Prop :=
  ∃ o t' e',
    Plugin.trace st' = (Plugin.trace st ++ o)%list ∧
    Plugin.pool st' !! i = Some t' ∧ t_id t' = t_id t ∧
    Plugin.executorsMap st' !! t_id t = Some e' ∧
    Runnable.shouldFinish e' = true ∧
    (chunks_by i o + budget (t_pc t') ≤ budget (t_pc t) + attempts_by i o)%nat.

(** ** Further notions *)

(** The upload id an observation carries. *)
Definition obs_id (o : Obs) : string :=
  match o with
  | Notify e => event_id e
  | Call _ id _ => id
  end.

(** Whether an action is a command on the session [id], an upload that takes
    [id] as its new id, or a step of a thread of the session [id]. *)
Definition concerns (id : string) (st : Plugin.State) (a : Action) : bool :=
  match a with
  | CallUpload _ env => String.eqb (randomUUID env) id
  | CallPause uploadId | CallResume uploadId | CallAbort uploadId _ =>
      match uploadId with
      | Some id' => String.eqb id' id
      | None => false
      end
  | Work i _ =>
      match Plugin.pool st !! i with
      | Some t => String.eqb (t_id t) id
      | None => false
      end
  end.

(** Thread [i] runs the session [e], registered under [id], and stands at
    [at_]. *)
Definition stands (st : Plugin.State) (i : nat) (id : string) (at_ : Pc)
    (e : Runnable.t) : Prop :=
  Plugin.pool st !! i = Some {| t_id := id; t_pc := at_ |} ∧
  Plugin.executorsMap st !! id = Some e.

(** The steps of thread [i] in which its sleep is not interrupted. *)
Definition waits (i : nat) (a : Action) : Prop :=
  ∃ r, a = Work i r ∧ r ≠ Interrupted.

(** The call of the engine a thread is about to make. *)
Definition pending_call (at_ : Pc) : option EngineCall :=
  match at_ with
  | AtAttempt => Some ResumeOrCreateUpload
  | AtChunk => Some UploadChunk
  | AtFinish => Some Finish
  | _ => None
  end.

(** The flag [isRunning] of every session with a task tells whether a
    thread is inside its [run()]. *)
Definition tracked (st : Plugin.State) : Prop :=
  ∀ j t e,
    Plugin.pool st !! j = Some t →
    Plugin.executorsMap st !! t_id t = Some e →
    Runnable.isRunning e = active t.

(** ** Concrete platforms, requests and schedules *)

Module Sample.

(** A platform with two processors whose [URL] knows http and https. *)
Definition platform : Platform :=
  {| malformedURL spec :=
       if String.prefix "http://" spec || String.prefix "https://" spec
       then None else Some ("no protocol: " +:+ spec);
     availableProcessors := 2 |}.

Definition options (metadata : option JMap) (chunkSize : option Z)
    : UploadOptions :=
  {| o_uri := Some "content://media/7";
     o_endpoint := Some "https://tus.example/files";
     o_headers := None;
     o_metadata := metadata;
     o_chunkSize := chunkSize |}.

Definition named (name : JString) : option Cursor :=
  Some {| getColumnIndex := 0; moveToFirst := true; getString := name |}.

Definition env (uuid : string) (name : JString) : UploadEnv :=
  {| openInputStream := Opened; available := Some 10;
     query := named name; randomUUID := uuid |}.

(** The steps of a run that sends one chunk of ten bytes and ends. *)
Definition whole_run (i : nat) : list Action :=
  [Work i Silent; Work i Silent; Work i (Created 0 "https://tus.example/files/1");
   Work i Silent; Work i Silent; Work i Silent; Work i (ChunkSent 10);
   Work i Silent; Work i Silent; Work i Silent; Work i (ChunkSent (-1));
   Work i Silent; Work i Finished; Work i Silent; Work i Silent].

(** The steps up to the first check of the pause flag. *)
Definition until_loop (i : nat) : list Action :=
  [Work i Silent; Work i Silent; Work i (Created 0 "https://tus.example/files/1");
   Work i Silent].

Definition run (sched : list Action) : Plugin.State :=
  @exec platform sched Plugin.init.

(** An upload runs to its end, then [resume] is called on it and the
    resubmitted session runs again. *)
Definition resumed_after_exit : list Action :=
  CallUpload (Some (options None None)) (env "u1" (Some "a.bin"))
  :: whole_run 0 ++ CallResume (Some "u1") :: whole_run 1.


(** A session is paused in its loop and then aborted. *)
Definition paused_then_aborted : list Action :=
  CallUpload (Some (options None None)) (env "u1" (Some "a.bin"))
  :: until_loop 0
  ++ [CallPause (Some "u1"); Work 0 Slept; CallAbort (Some "u1") None].

(** The loop leaves its wait, having read [shouldFinish], and goes on. *)
Definition after_abort : list Action :=
  [Work 0 Silent; Work 0 Silent; Work 0 (ChunkSent 10); Work 0 Silent;
   Work 0 Finished].

(** An upload is aborted before a pool thread has taken it. *)
Definition aborted_before_start : list Action :=
  [CallUpload (Some (options None None)) (env "u1" (Some "a.bin"));
   CallAbort (Some "u1") None].

(** A session is paused in its loop, resumed while it runs, and ends. *)
Definition paused_and_resumed : list Action :=
  CallUpload (Some (options None None)) (env "u1" (Some "a.bin"))
  :: until_loop 0
  ++ [CallPause (Some "u1"); Work 0 Slept; CallResume (Some "u1");
      Work 0 Silent; Work 0 Silent; Work 0 (ChunkSent 10); Work 0 Silent;
      Work 0 Silent; Work 0 Silent; Work 0 (ChunkSent (-1)); Work 0 Silent;
      Work 0 Finished; Work 0 Silent; Work 0 Silent].



(** An upload whose stream cannot tell its size; its thread has sent the
    first onProgress and stands before [uploadChunk()]. *)
Definition before_chunk : list Action :=
  CallUpload (Some (options None None))
    {| openInputStream := Opened; available := None;
       query := named (Some "a.bin"); randomUUID := "u1" |}
  :: until_loop 0 ++ [Work 0 Silent; Work 0 Silent].

(** An upload whose thread has reached the loop. *)
Definition in_loop : list Action :=
  CallUpload (Some (options None None)) (env "u1" (Some "a.bin"))
  :: until_loop 0.

(** Two uploads, none taken by a thread. *)
Definition two_uploads : list Action :=
  [CallUpload (Some (options None None)) (env "u1" (Some "a.bin"));
   CallUpload (Some (options None None)) (env "u2" (Some "b.bin"))].

(** An upload whose run has returned. *)
Definition finished : list Action :=
  CallUpload (Some (options None None)) (env "u1" (Some "a.bin"))
  :: whole_run 0.

(** An upload whose thread has been told that there is no more data. *)
Definition at_end_of_data : list Action := take 12 finished.

(** A first upload runs to its end; a second upload is made and [resume] is
    called on the first, which is submitted again; the second session runs
    to its end, then the first runs a second time. *)
Definition other_resumed : list Action :=
  CallUpload (Some (options None None)) (env "u1" (Some "a.bin"))
  :: whole_run 0
  ++ [CallUpload (Some (options None None)) (env "u2" (Some "b.bin"));
      CallResume (Some "u1")]
  ++ whole_run 1 ++ whole_run 2.

(** After the abort the loop leaves its wait; [uploadChunk()] throws and
    [makeAttempts] makes another attempt, which sends a chunk and ends. *)
Definition after_abort_retry : list Action :=
  [Work 0 Silent; Work 0 Silent;
   Work 0 (Threw {| message := Some "connection reset"; retry := true |});
   Work 0 (Created 0 "https://tus.example/files/1"); Work 0 Silent;
   Work 0 Silent; Work 0 Silent; Work 0 (ChunkSent 10); Work 0 Silent;
   Work 0 Finished].

End Sample.

(** ** Properties *)

(** Case analysis on one atomic step of a pool thread. *)
Ltac step_cases H :=
  unfold Runnable.step, Runnable.thrown in H;
  repeat case_match; simplify_eq/=.

(** Membership in the observations of a step, which are explicit lists. *)
Ltac obs_member :=
  repeat match goal with
  | Hin : _ ∈ [] |- _ => by apply elem_of_nil in Hin
  | Hin : _ ∈ _ :: _ |- _ =>
      apply elem_of_cons in Hin as [Hin | Hin]; simplify_eq/=
  end.

Section Commands.

Context `{Platform}.

(** C5.  A pause, resume or abort whose uploadId is missing (null) or is not
    a key of the registry is rejected with the message "Invalid or missing
    uploadId"; the state after the call is the state before it: nothing is
    observed, the registry, the pool and every session are as they were. *)
Theorem unknown_uploadId_rejected (uploadId : JString) (fin : option JString)
    (st : Plugin.State) :
  (uploadId = None ∨
   ∃ id, uploadId = Some id ∧ Plugin.executorsMap st !! id = None) →
  Plugin.pause uploadId st = (st, Rejected "Invalid or missing uploadId") ∧
  Plugin.resume uploadId st = (st, Rejected "Invalid or missing uploadId") ∧
  Plugin.abort uploadId fin st = (st, Rejected "Invalid or missing uploadId").
Proof.
  intros [-> | (id & -> & Hid)]; [done |].
  unfold Plugin.pause, Plugin.resume, Plugin.abort. by rewrite Hid.
Qed.

(** C6.  An upload whose endpoint is the empty string and whose uri is not
    empty is rejected during the call: the constructor of the session
    throws on [new URL("")], or the stream could not be opened before.  The
    registry, the pool and the trace are unchanged: no session is created,
    none is submitted and no event is sent. *)
Theorem upload_empty_endpoint_rejected (options : UploadOptions)
    (env : UploadEnv) (st : Plugin.State) (uri : string) :
  malformedURL "" ≠ None →
  o_uri options = Some uri → uri ≠ "" → o_endpoint options = Some "" →
  ∃ msg st',
    Plugin.upload (Some options) env st = (st', Rejected msg) ∧
    Plugin.executorsMap st' = Plugin.executorsMap st ∧
    Plugin.pool st' = Plugin.pool st ∧
    Plugin.trace st' = Plugin.trace st.
Proof.
  intros Hurl Huri Hne Hend. unfold Plugin.upload.
  rewrite Huri, Hend.
  destruct (String.eqb_spec uri "") as [-> | _]; [done |].
  destruct (Config.getInstance (Plugin.instance st)) as [config inst].
  destruct (openInputStream env);
    [| by eexists _, _; split_and! | by eexists _, _; split_and!].
  unfold Runnable.new.
  destruct (malformedURL "") as [msg |]; [| done].
  by eexists _, _; split_and!.
Qed.

(** C8, as the code has it.  [abort] on a session whose run is executing
    sets [shouldFinish] and resolves without a call to the engine.  On a
    session that is not executing it calls [finish] of the engine during
    the call when the session has an uploader, and resolves or is rejected
    as that call returns or throws; when the session has no uploader yet it
    does nothing to the session and resolves. *)
Theorem abort_by_state (id : string) (fin : option JString)
    (st : Plugin.State) (e : Runnable.t) :
  Plugin.executorsMap st !! id = Some e →
  let '(st', result) := Plugin.abort (Some id) fin st in
  if Runnable.isRunning e then
    Plugin.executorsMap st' !! id = Some (Runnable.set_shouldFinish true e) ∧
    Plugin.trace st' = Plugin.trace st ∧ result = Resolved []
  else
    Plugin.executorsMap st' !! id = Some e ∧
    match Runnable.uploader e with
    | Some _ =>
        Plugin.trace st' = (Plugin.trace st ++ [Call Bridge id Finish])%list ∧
        result = match fin with
                 | None => Resolved []
                 | Some msg => Rejected ("Error aborting upload: " +:+ str msg)
                 end
    | None => Plugin.trace st' = Plugin.trace st ∧ result = Resolved []
    end.
Proof.
  intros He. unfold Plugin.abort, Runnable.finish. rewrite He.
  destruct (Runnable.isRunning e) eqn:Hrun; simpl.
  - rewrite lookup_insert_eq, app_nil_r. done.
  - destruct (Runnable.uploader e) as [u |]; simpl.
    + destruct fin; simpl; by rewrite lookup_insert_eq.
    + by rewrite lookup_insert_eq, app_nil_r.
Qed.

(** A step of task [i] that its thread can take: a thread that is free to
    enter [run()], or one that is inside it. *)
Lemma work_runs st i id at_ e r res :
  stands st i id at_ e →
  (at_ = Queued → Plugin.may_start (Plugin.pool st) = true) →
  Runnable.step i (Plugin.instance st) r at_ e = Some res →
  stands (Plugin.work i r st) i id (Runnable.pc res) (Runnable.session res) ∧
  Plugin.instance (Plugin.work i r st) = Runnable.instance res ∧
  Plugin.trace (Plugin.work i r st) = (Plugin.trace st ++ Runnable.obs res)%list.
Proof.
  intros [Hi He] Hstart Hstep. unfold Plugin.work, stands. rewrite Hi; simpl.
  rewrite He, Hstep.
  assert (queued {| t_id := id; t_pc := at_ |}
          && negb (Plugin.may_start (Plugin.pool st)) = false) as ->.
  { destruct at_; try done. unfold queued; simpl. by rewrite Hstart. }
  simpl. split_and!; try done.
  - apply list_lookup_insert_eq. by eapply lookup_lt_Some.
  - apply lookup_insert_eq.
Qed.

(** C9.  A chunkSize that is zero or negative is ignored: the upload call
    does what it does without a chunkSize, and the process-wide setting is
    left as it was, which is 6 MiB at first.  The request does not fail for
    it: when the uri is not empty, the stream opens and the endpoint is a
    URL, the call resolves with the new upload id, and the session is
    registered and submitted.  The session runs with the setting: when a
    thread is free to take it, its run sends onStart, creates the uploader
    and gives it the setting as its chunk size, as every transfer does when
    it starts. *)
Theorem nonpositive_chunkSize_ignored (options : UploadOptions)
    (env : UploadEnv) (st : Plugin.State) (c : Z) :
  c ≤ 0 →
  Plugin.upload (Some (with_chunkSize (Some c) options)) env st
    = Plugin.upload (Some (with_chunkSize None options)) env st ∧
  setting (Plugin.upload (Some (with_chunkSize (Some c) options)) env st).1
    = setting st ∧
  setting Plugin.init = 6 * 1024 * 1024 ∧
  (∀ i inst e res,
    Runnable.step i inst Silent AtChunkSize e = Some res →
    chunk_of (Runnable.session res)
      = Some (Config.getChunkSize (Config.getInstance inst).1)) ∧
  ∀ uri endpoint,
    o_uri options = Some uri → uri ≠ "" →
    o_endpoint options = Some endpoint → malformedURL endpoint = None →
    openInputStream env = Opened →
    let id := randomUUID env in
    let i := length (Plugin.pool st) in
    ∃ st' e,
      Plugin.upload (Some (with_chunkSize (Some c) options)) env st
        = (st', Resolved [("uploadId", JSString id)]) ∧
      registered id st' = Some e ∧
      Plugin.pool st' = (Plugin.pool st ++ [{| t_id := id; t_pc := Queued |}])%list ∧
      Plugin.trace st' = Plugin.trace st ∧
      ∀ off url,
        Plugin.may_start (Plugin.pool st') = true →
        let st'' := exec [Work i Silent; Work i Silent; Work i (Created off url);
                          Work i Silent] st' in
        Plugin.trace st''
          = (Plugin.trace st
             ++ [Notify (onStart id (metadata (Runnable.upload e)));
                 Call (Worker i) id ResumeOrCreateUpload;
                 Call (Worker i) id (SetChunkSize (setting st))])%list ∧
        (registered id st'' ≫= chunk_of) = Some (setting st).
Proof.
  intros Hc. assert ((c >? 0) = false) as Hgt by lia.
  split_and!.
  - unfold Plugin.upload; simpl. by rewrite Hgt.
  - unfold Plugin.upload; simpl. rewrite Hgt.
    unfold setting.
    destruct (Plugin.instance st) as [config |] eqn:Hinst; simpl;
      repeat case_match; simpl; by rewrite ?Hinst.
  - done.
  - intros i inst e res Hstep. step_cases Hstep.
    unfold chunk_of; simpl. by destruct inst.
  - intros uri endpoint Huri Hne Hend Hurl Hopen id i.
    destruct (Plugin.upload (Some (with_chunkSize (Some c) options)) env st)
      as [st' result] eqn:Hup.
    assert (∃ e config,
              result = Resolved [("uploadId", JSString id)] ∧
              stands st' i id Queued e ∧
              Runnable.uploader e = None ∧ Runnable.uploadId e = id ∧
              Plugin.instance st' = Some config ∧
              Config.getChunkSize config = setting st ∧
              Plugin.pool st'
                = (Plugin.pool st ++ [{| t_id := id; t_pc := Queued |}])%list ∧
              Plugin.trace st' = Plugin.trace st)
      as (e & config & -> & Hst & Hu & Hid & Hinst & Hset & Hpool & Htr).
    { unfold Plugin.upload, Runnable.new in Hup; simpl in Hup.
      rewrite Huri, Hend, Hgt, Hopen, Hurl in Hup.
      destruct (String.eqb_spec uri "") as [-> | _]; [done |].
      unfold setting.
      destruct (Config.getInstance (Plugin.instance st)) as [config inst].
      simpl in Hup. injection Hup as <- <-.
      eexists _, config. split_and!; try done.
      all: try (split; simpl; [by apply list_lookup_middle | apply lookup_insert_eq]).
      all: done. }
    exists st', e. split_and!; try done; [apply Hst |].
    intros off url Hstart st''. subst st''. unfold exec; simpl.
    eapply (work_runs _ _ _ _ _ Silent) in Hst as (Hst & Hinst1 & Htr1);
      [| done | reflexivity].
    eapply (work_runs _ _ _ _ _ Silent) in Hst as (Hst & Hinst2 & Htr2);
      [| done | reflexivity].
    eapply (work_runs _ _ _ _ _ (Created off url)) in Hst as (Hst & Hinst3 & Htr3);
      [| done | reflexivity].
    eapply (work_runs _ _ _ _ _ Silent) in Hst as (Hst & Hinst4 & Htr4);
      [| done | simpl; rewrite Hinst3, Hinst2, Hinst1, Hinst; reflexivity].
    simpl in *. destruct Hst as [_ Hreg]. unfold registered. rewrite Hreg. simpl.
    rewrite Htr4, Htr3, Htr2, Htr1, Htr, <- !app_assoc, Hset, Hid. done.
Qed.

End Commands.

Section Steps.

Context `{Platform}.

(** A step of a pool thread leaves the upload (size, fingerprint,
    metadata) and the id of the session alone. *)
Lemma step_keeps_upload i inst r at_ e res :
  Runnable.step i inst r at_ e = Some res →
  Runnable.upload (Runnable.session res) = Runnable.upload e ∧
  Runnable.uploadId (Runnable.session res) = Runnable.uploadId e.
Proof. intros Hstep. by step_cases Hstep. Qed.

(** Every event a step sends carries the id and the metadata of the
    session. *)
Lemma step_events i inst r at_ e res ev :
  Runnable.step i inst r at_ e = Some res →
  Notify ev ∈ Runnable.obs res →
  event_id ev = Runnable.uploadId e ∧
  event_context ev = metadata (Runnable.upload e).
Proof.
  intros Hstep. step_cases Hstep; intros Hin; by obs_member.
Qed.

End Steps.

(** With no total size, [x / 0.0 * 100] is an infinity or NaN for every
    [x]. *)
Lemma progress_of_zero_total (bytesUploaded : Z) :
  non_finite (Runnable.progress bytesUploaded 0) = true.
Proof.
  unfold non_finite, Runnable.progress.
  rewrite FloatAxioms.mul_spec, FloatAxioms.div_spec.
  change (Prim2SF (double_of_long 0)) with (S754_zero false).
  destruct (Prim2SF (double_of_long bytesUploaded)); reflexivity.
Qed.

(** The sign is carried through the rounding. *)
Lemma binary_round_opp (m : positive) :
  SFopp (binary_round prec emax false m 0) = binary_round prec emax true m 0.
Proof.
  unfold binary_round, binary_round_aux.
  repeat case_match; simplify_eq/=; try done.
Qed.

(** The cast is the conversion IEEE 754 defines. *)
Lemma double_of_long_spec (x : Z) :
  is_long x → Prim2SF (double_of_long x) = nearest_double x.
Proof.
  intros [Hlo Hhi]. unfold double_of_long, nearest_double.
  destruct (Z.eqb_spec x (- 2 ^ 63)) as [-> | Hne]; [by vm_compute |].
  destruct (Z.ltb_spec x 0) as [Hneg | Hpos].
  - rewrite FloatAxioms.opp_spec, FloatAxioms.of_uint63_spec, Uint63.of_Z_spec.
    rewrite Z.mod_small by (change wB with (2 ^ 63); lia).
    destruct x as [| p | p]; try lia. simpl. apply binary_round_opp.
  - rewrite FloatAxioms.of_uint63_spec, Uint63.of_Z_spec.
    by rewrite Z.mod_small by (change wB with (2 ^ 63); lia).
Qed.

(** The percentage is the binary64 quotient multiplied by 100 in binary64. *)
Lemma progress_spec (bytesUploaded totalBytes : Z) :
  is_long bytesUploaded → is_long totalBytes →
  Prim2SF (Runnable.progress bytesUploaded totalBytes)
    = SF64mul (SF64div (nearest_double bytesUploaded) (nearest_double totalBytes))
              (nearest_double 100).
Proof.
  intros Hb Ht. unfold Runnable.progress.
  rewrite FloatAxioms.mul_spec, FloatAxioms.div_spec.
  by rewrite !double_of_long_spec.
Qed.

Section Schedules.

Context `{Platform}.

Lemma events_of_app id (tr tr' : list Obs) :
  events_of id (tr ++ tr') = (events_of id tr ++ events_of id tr')%list.
Proof.
  induction tr as [| [e | who id' c] tr IH]; simpl; [done | | done].
  case_match; by rewrite IH.
Qed.

Lemma events_of_calls id who id' (calls : list EngineCall) :
  events_of id (Call who id' <$> calls) = [].
Proof. by induction calls. Qed.

Lemma kinds_app id (tr tr' : list Obs) :
  kinds id (tr ++ tr') = (kinds id tr ++ kinds id tr')%list.
Proof. unfold kinds. by rewrite events_of_app, fmap_app. Qed.

Lemma order_app (ks ks' : list Kind) :
  order (ks ++ ks') = foldl next (order ks) ks'.
Proof. apply foldl_app. Qed.

Lemma kinds_calls id who id' (calls : list EngineCall) :
  kinds id (Call who id' <$> calls) = [].
Proof. unfold kinds. by rewrite events_of_calls. Qed.

Lemma step_keeps_flags i inst r at_ e res :
  Runnable.step i inst r at_ e = Some res →
  Runnable.shouldFinish (Runnable.session res) = Runnable.shouldFinish e ∧
  Runnable.isPaused (Runnable.session res) = Runnable.isPaused e.
Proof. intros Hstep. by step_cases Hstep. Qed.

Lemma step_kinds i inst r at_ e res :
  Runnable.step i inst r at_ e = Some res →
  foldl next (phase at_) (kinds (Runnable.uploadId e) (Runnable.obs res))
    = phase (Runnable.pc res) ∧
  ∀ id, id ≠ Runnable.uploadId e → kinds id (Runnable.obs res) = [].
Proof.
  intros Hstep. unfold kinds.
  step_cases Hstep; rewrite ?String.eqb_refl; simpl.
  all: split; [done |]; intros id Hid; try done.
  all: by destruct (String.eqb_spec (Runnable.uploadId e) id).
Qed.

Lemma work_cases i r st :
  Plugin.work i r st = st ∨
  ∃ t e res,
    Plugin.pool st !! i = Some t ∧
    Plugin.executorsMap st !! t_id t = Some e ∧
    Runnable.step i (Plugin.instance st) r (t_pc t) e = Some res ∧
    Plugin.work i r st =
      {| Plugin.instance := Runnable.instance res;
         Plugin.executorsMap :=
           <[t_id t := Runnable.session res]> (Plugin.executorsMap st);
         Plugin.pool :=
           <[i := {| t_id := t_id t; t_pc := Runnable.pc res |}]> (Plugin.pool st);
         Plugin.trace := (Plugin.trace st ++ Runnable.obs res)%list |}.
Proof.
  unfold Plugin.work. repeat case_match; eauto 10.
Qed.

Lemma upload_cases options env st :
  let st' := (Plugin.upload options env st).1 in
  Plugin.trace st' = Plugin.trace st ∧
  ((Plugin.executorsMap st' = Plugin.executorsMap st ∧
    Plugin.pool st' = Plugin.pool st) ∨
   ∃ e, Runnable.uploadId e = randomUUID env ∧
        Runnable.shouldFinish e = false ∧
        Plugin.executorsMap st'
          = <[randomUUID env := e]> (Plugin.executorsMap st) ∧
        Plugin.pool st'
          = (Plugin.pool st ++ [{| t_id := randomUUID env; t_pc := Queued |}])%list).
Proof.
  unfold Plugin.upload, Runnable.new.
  repeat case_match; simplify_eq/=; (split; [done |]); try by left.
  all: right; eexists; split_and!; try done; done.
Qed.

Lemma bridge_cases a st :
  bridge_command a = true →
  step st a = st ∨
  ∃ id e e' calls,
    Plugin.executorsMap st !! id = Some e ∧ touched e e' ∧
    Plugin.instance (step st a) = Plugin.instance st ∧
    Plugin.executorsMap (step st a) = <[id := e']> (Plugin.executorsMap st) ∧
    Plugin.trace (step st a) = (Plugin.trace st ++ (Call Bridge id <$> calls))%list ∧
    (Plugin.pool (step st a) = Plugin.pool st ∨
     a = CallResume (Some id) ∧ Runnable.isRunning e = false ∧
     Plugin.pool (step st a)
       = (Plugin.pool st ++ [{| t_id := id; t_pc := Queued |}])%list).
Proof.
  destruct a as [| [id |] | [id |] | [id |] fin |]; try done; intros _; simpl;
    auto.
  - unfold Plugin.pause. destruct (Plugin.executorsMap st !! id) as [e |] eqn:He;
      [right | by left]; simpl.
    exists id, e, (Runnable.pause e), []. rewrite app_nil_r.
    by repeat split; auto.
  - unfold Plugin.resume. destruct (Plugin.executorsMap st !! id) as [e |] eqn:He;
      [right | by left]; simpl.
    exists id, e, (Runnable.resume e), [].
    unfold Runnable.isRunning'; simpl. rewrite andb_true_r.
    destruct (Runnable.isRunning e) eqn:Hrun; simpl; rewrite app_nil_r;
      repeat split; auto.
  - unfold Plugin.abort, Runnable.finish.
    destruct (Plugin.executorsMap st !! id) as [e |] eqn:He;
      [right | by left]; simpl.
    destruct (Runnable.isRunning e) eqn:Hrun; simpl.
    + exists id, e, (Runnable.set_shouldFinish true e), [].
      by repeat split; auto.
    + destruct (Runnable.uploader e) as [u |] eqn:Hu; simpl.
      * exists id, e, e, [Finish]. destruct fin; by repeat split; auto.
      * exists id, e, e, []. by repeat split; auto.
Qed.

Lemma keyed_init : keyed Plugin.init.
Proof. by intros id e. Qed.

Lemma keyed_bridge a st :
  bridge_command a = true → keyed st → keyed (step st a).
Proof.
  intros Ha Hst.
  destruct (bridge_cases a st Ha)
    as [-> | (id & e & e' & calls & He & (_ & Hid & _) & _ & Hreg & _)]; [done |].
  intros id' e''. rewrite Hreg.
  intros [[<- <-] | [_ He'']]%lookup_insert_Some; [| eauto].
  rewrite Hid. eauto.
Qed.

Lemma keyed_step st a : keyed st → keyed (step st a).
Proof.
  intros Hst. destruct a as [options env | uploadId | uploadId | uploadId fin | j r].
  - simpl. intros id e.
    destruct (upload_cases options env st)
      as [_ [[-> _] | (e0 & Hid & _ & -> & _)]]; [apply Hst |].
    intros [[<- <-] | [_ He]]%lookup_insert_Some; eauto.
  - by apply keyed_bridge.
  - by apply keyed_bridge.
  - by apply keyed_bridge.
  - simpl. destruct (work_cases j r st) as [-> | (t & e0 & res & _ & He0 & Hstep & ->)];
      [done |].
    intros id e; simpl.
    intros [[<- <-] | [_ He]]%lookup_insert_Some; eauto.
    destruct (step_keeps_upload _ _ _ _ _ _ Hstep) as [_ ->]. eauto.
Qed.

Lemma keyed_exec sched st : keyed st → keyed (exec sched st).
Proof.
  revert st. induction sched as [| a sched IH]; intros st Hst; [done |].
  apply IH. by apply keyed_step.
Qed.

Lemma consistent_init : consistent Plugin.init.
Proof. split; simpl; try done. constructor. Qed.

Lemma consistent_upload options env st :
  consistent st →
  Plugin.executorsMap st !! randomUUID env = None →
  consistent (Plugin.upload options env st).1.
Proof.
  intros [Hids Hone Hknown Hphase Hsilent] Hfresh.
  destruct (upload_cases options env st) as [Htr [[Hreg Hpool] | (e & Hid & _ & Hreg & Hpool)]].
  - split; unfold keyed; rewrite ?Hreg, ?Hpool, ?Htr; done.
  - assert (randomUUID env ∉ t_id <$> Plugin.pool st) as Hnew.
    { intros (t & Ht & Hin)%list_elem_of_fmap.
      apply list_elem_of_lookup in Hin as [j Hj].
      destruct (Hknown j t Hj) as [e' He']. congruence. }
    split; unfold keyed; rewrite ?Hreg, ?Hpool, ?Htr.
    + intros id e' [[<- <-] | [_ He']]%lookup_insert_Some; eauto.
    + rewrite fmap_app. apply NoDup_app. split_and!; [done | | apply NoDup_singleton].
      intros id Hin ->%list_elem_of_singleton. done.
    + intros j t [Hj | [_ Hj]]%lookup_app_Some.
      * destruct (Hknown j t Hj) as [e' He'].
        rewrite lookup_insert_ne; [eauto |]. congruence.
      * destruct (j - length (Plugin.pool st))%nat; simplify_eq/=.
        rewrite lookup_insert_eq. eauto.
    + intros j t [Hj | [_ Hj]]%lookup_app_Some; [eauto |].
      destruct (j - length (Plugin.pool st))%nat; simplify_eq/=.
      by rewrite (Hsilent _ Hnew).
    + intros id Hid'. apply Hsilent. rewrite fmap_app in Hid'.
      intros Hin. apply Hid'. apply elem_of_app. by left.
Qed.

Lemma consistent_bridge a st :
  bridge_command a = true →
  consistent st → resume_while_running st a = true → consistent (step st a).
Proof.
  intros Ha [Hids Hone Hknown Hphase Hsilent] Hres.
  destruct (bridge_cases a st Ha)
    as [-> | (id & e & e' & calls & He & (_ & Hid & _ & _) & _ & Hreg & Htr & Hpool)];
    [done |].
  assert (Plugin.pool (step st a) = Plugin.pool st) as Hpool'.
  { destruct Hpool as [Hpool | (-> & Hrun & _)]; [done |].
    simpl in Hres. rewrite He in Hres. congruence. }
  split; unfold keyed; rewrite ?Hreg, ?Hpool', ?Htr; try done.
  - intros id' e'' [[<- <-] | [_ He'']]%lookup_insert_Some; eauto.
    rewrite Hid. eauto.
  - intros j t Hj. destruct (Hknown j t Hj) as [e'' He''].
    destruct (decide (id = t_id t)) as [<- | Hne].
    + rewrite lookup_insert_eq. eauto.
    + rewrite lookup_insert_ne; eauto.
  - intros j t Hj. rewrite kinds_app, kinds_calls, app_nil_r. eauto.
  - intros id' Hid'. rewrite kinds_app, kinds_calls, app_nil_r. eauto.
Qed.

Lemma consistent_work i r st :
  consistent st → consistent (Plugin.work i r st).
Proof.
  intros [Hids Hone Hknown Hphase Hsilent].
  destruct (work_cases i r st) as [-> | (t & e & res & Hi & He & Hstep & ->)];
    [done |].
  pose proof (Hids _ _ He) as Hid.
  destruct (step_keeps_upload _ _ _ _ _ _ Hstep) as [_ Hid'].
  destruct (step_kinds _ _ _ _ _ _ Hstep) as [Hk Hother].
  assert ((t_id <$> <[i := {| t_id := t_id t; t_pc := Runnable.pc res |}]>
                      (Plugin.pool st)) = t_id <$> Plugin.pool st) as Hsame.
  { rewrite list_fmap_insert. simpl. apply list_insert_id.
    by rewrite list_lookup_fmap, Hi. }
  split; unfold keyed; simpl; rewrite ?Hsame; try done.
  - intros id e' [[<- <-] | [_ He']]%lookup_insert_Some; eauto. congruence.
  - intros j t' Hj.
    destruct (decide (i = j)) as [<- | Hne].
    + rewrite list_lookup_insert_eq in Hj by (by eapply lookup_lt_Some).
      simplify_eq/=. rewrite lookup_insert_eq. eauto.
    + rewrite list_lookup_insert_ne in Hj by done.
      destruct (Hknown j t' Hj) as [e'' He''].
      destruct (decide (t_id t = t_id t')) as [<- | Hne'].
      * rewrite lookup_insert_eq. eauto.
      * rewrite lookup_insert_ne; eauto.
  - intros j t' Hj. rewrite kinds_app, order_app.
    destruct (decide (i = j)) as [<- | Hne].
    + rewrite list_lookup_insert_eq in Hj by (by eapply lookup_lt_Some).
      simplify_eq/=. rewrite (Hphase _ _ Hi), <- Hid. done.
    + rewrite list_lookup_insert_ne in Hj by done.
      rewrite Hother; [simpl; eauto |].
      rewrite Hid. intros Heq.
      apply Hne. eapply NoDup_lookup; [exact Hone | |].
      * by rewrite list_lookup_fmap, Hi.
      * by rewrite list_lookup_fmap, Hj; simpl; rewrite Heq.
  - intros id Hnot. rewrite kinds_app, (Hsilent _ Hnot). simpl.
    apply Hother. rewrite Hid. intros ->. apply Hnot.
    apply list_elem_of_fmap. exists t. split; [done |].
    by eapply list_elem_of_lookup_2.
Qed.

Lemma consistent_step st a :
  consistent st →
  fresh_uuid st a = true → resume_while_running st a = true →
  consistent (step st a).
Proof.
  intros Hst Hfresh Hres. destruct a as [options env | | | |i r].
  - apply consistent_upload; [done |]. simpl in Hfresh. by case_match.
  - by apply consistent_bridge.
  - by apply consistent_bridge.
  - by apply consistent_bridge.
  - by apply consistent_work.
Qed.

Lemma consistent_exec sched st :
  consistent st →
  along fresh_uuid st sched = true →
  along resume_while_running st sched = true →
  consistent (exec sched st).
Proof.
  revert st. induction sched as [| a sched IH]; intros st Hst Hf Hr; [done |].
  simpl in Hf, Hr.
  apply andb_true_iff in Hf as [Hf Hf'], Hr as [Hr Hr'].
  apply IH; [by apply consistent_step | done | done].
Qed.

Lemma order_shape ks : shape (order ks) ks.
Proof.
  induction ks as [| k ks IH] using rev_ind; [done |].
  rewrite order_app; simpl.
  destruct (order ks), k; simpl in *; try done.
  - subst. by exists 0%nat.
  - destruct IH as [n ->]. exists (S n).
    by rewrite replicate_S_end, app_comm_cons.
  - destruct IH as [n ->]. by exists n, KSuccess.
  - destruct IH as [n ->]. by exists n, KError.
Qed.

Lemma ordered_for_init id : ordered_for id Plugin.init.
Proof. split; try done. Qed.

Lemma ordered_for_upload id options env st :
  ordered_for id st →
  Plugin.executorsMap st !! randomUUID env = None →
  ordered_for id (Plugin.upload options env st).1.
Proof.
  intros [Hkey Hknown Hone Hphase Hsilent] Hfresh.
  pose proof (keyed_step st (CallUpload options env) Hkey) as Hkey'.
  change (keyed (Plugin.upload options env st).1) in Hkey'.
  destruct (upload_cases options env st)
    as [Htr [[Hreg Hpool] | (e & Hid & _ & Hreg & Hpool)]].
  - split; rewrite ?Hreg, ?Hpool, ?Htr; done.
  - assert (∀ j t, Plugin.pool st !! j = Some t → t_id t ≠ randomUUID env)
      as Hnew.
    { intros j t Hj Heq. destruct (Hknown j t Hj) as [e' He']. congruence. }
    split; rewrite ?Hreg, ?Hpool, ?Htr; try done.
    + intros j t [Hj | [_ Hj]]%lookup_app_Some.
      * apply lookup_insert_is_Some'. right. eauto.
      * destruct (j - length (Plugin.pool st))%nat; simplify_eq/=.
        rewrite lookup_insert_eq. eauto.
    + intros i j ti tj [Hi | [Hgi Hi]]%lookup_app_Some
        [Hj | [Hgj Hj]]%lookup_app_Some Hti Htj.
      * by apply (Hone i j ti tj).
      * destruct (j - length (Plugin.pool st))%nat; simplify_eq/=.
        by destruct (Hnew i ti Hi).
      * destruct (i - length (Plugin.pool st))%nat; simplify_eq/=.
        by destruct (Hnew j tj Hj).
      * destruct (i - length (Plugin.pool st))%nat eqn:Ei; simplify_eq/=.
        destruct (j - length (Plugin.pool st))%nat eqn:Ej; simplify_eq/=.
        lia.
    + intros j t [Hj | [_ Hj]]%lookup_app_Some Ht; [eauto |].
      destruct (j - length (Plugin.pool st))%nat; simplify_eq/=.
      rewrite Hsilent; [done |]. intros j' t' Hj' Heq.
      by destruct (Hnew j' t' Hj').
    + intros Hnone. apply Hsilent. intros j t Hj.
      apply (Hnone j). by apply lookup_app_l_Some.
Qed.


Lemma ordered_for_bridge id a st :
  bridge_command a = true →
  ordered_for id st → own_resume_while_running id st a = true →
  ordered_for id (step st a).
Proof.
  intros Ha [Hkey Hknown Hone Hphase Hsilent] Hres.
  pose proof (keyed_step st a Hkey) as Hkey'.
  destruct (bridge_cases a st Ha)
    as [-> | (id0 & e & e' & calls & He & _ & _ & Hreg & Htr & Hpool)];
    [done |].
  assert (∀ j t, Plugin.pool (step st a) !! j = Some t →
                 Plugin.pool st !! j = Some t ∨
                 (t_id t = id0 ∧ id0 ≠ id ∧ t_pc t = Queued)) as Hold.
  { intros j t Hj. destruct Hpool as [Hpool | (-> & Hrun & Hpool)];
      rewrite Hpool in Hj; [by left |].
    apply lookup_app_Some in Hj as [Hj | [_ Hj]]; [by left | right].
    destruct (j - length (Plugin.pool st))%nat; simplify_eq/=.
    split_and!; try done. intros ->.
    rewrite String.eqb_refl, He in Hres. congruence. }
  assert (∀ j t, Plugin.pool st !! j = Some t →
                 Plugin.pool (step st a) !! j = Some t) as Hnew.
  { intros j t Hj. destruct Hpool as [-> | (_ & _ & ->)]; [done |].
    by apply lookup_app_l_Some. }
  split; try done.
  - intros j t Hj. rewrite Hreg. apply lookup_insert_is_Some'.
    destruct (Hold j t Hj) as [Hj' | (<- & _)]; [right; eauto | by left].
  - intros i j ti tj Hi Hj Hti Htj.
    destruct (Hold i ti Hi) as [Hi' | (? & ? & _)]; [| congruence].
    destruct (Hold j tj Hj) as [Hj' | (? & ? & _)]; [| congruence].
    by apply (Hone i j ti tj).
  - intros j t Hj Ht. rewrite Htr, kinds_app, kinds_calls, app_nil_r.
    destruct (Hold j t Hj) as [Hj' | (? & ? & _)]; [eauto | congruence].
  - intros Hnone. rewrite Htr, kinds_app, kinds_calls, app_nil_r.
    apply Hsilent. intros j t Hj. apply (Hnone j). by apply Hnew.
Qed.

Lemma ordered_for_work id i r st :
  ordered_for id st → ordered_for id (Plugin.work i r st).
Proof.
  intros [Hkey Hknown Hone Hphase Hsilent].
  pose proof (keyed_step st (Work i r) Hkey) as Hkey'.
  destruct (work_cases i r st) as [Hsame | (t & e & res & Hi & He & Hstep & Hwork)];
    [by rewrite Hsame |].
  simpl in Hkey'. rewrite Hwork in Hkey' |- *.
  pose proof (Hkey _ _ He) as Hid.
  destruct (step_kinds _ _ _ _ _ _ Hstep) as [Hk Hother].
  assert (∀ j t', <[i := {| t_id := t_id t; t_pc := Runnable.pc res |}]>
                    (Plugin.pool st) !! j = Some t' →
                  ∃ t0, Plugin.pool st !! j = Some t0 ∧ t_id t0 = t_id t' ∧
                        (j ≠ i → t0 = t') ∧
                        (j = i → t0 = t ∧ t_pc t' = Runnable.pc res)) as Hold.
  { intros j t' Hj. destruct (decide (i = j)) as [<- | Hne].
    - rewrite list_lookup_insert_eq in Hj by (by eapply lookup_lt_Some).
      simplify_eq/=. by exists t.
    - rewrite list_lookup_insert_ne in Hj by done. exists t'.
      by split_and!. }
  split; simpl; try done.
  - intros j t' Hj. destruct (Hold j t' Hj) as (t0 & Hj0 & Hid0 & _).
    apply lookup_insert_is_Some'. right. rewrite <- Hid0. eauto.
  - intros i1 i2 t1 t2 H1 H2 Ht1 Ht2.
    destruct (Hold i1 t1 H1) as (t1' & H1' & Hid1 & _).
    destruct (Hold i2 t2 H2) as (t2' & H2' & Hid2 & _).
    apply (Hone i1 i2 t1' t2'); congruence.
  - intros j t' Hj Ht'. rewrite kinds_app, order_app.
    destruct (Hold j t' Hj) as (t0 & Hj0 & Hid0 & Hne & Heq).
    destruct (decide (j = i)) as [-> | Hji].
    + destruct (Heq eq_refl) as [-> ->].
      rewrite (Hphase i t Hi) by congruence.
      rewrite <- Ht', <- Hid0, <- Hid. exact Hk.
    + rewrite (Hne Hji) in Hj0.
      rewrite Hother; [simpl; eauto |].
      rewrite Hid. intros Heq'. apply Hji.
      apply (Hone j i t' t); congruence.
  - intros Hnone. rewrite kinds_app.
    rewrite Hsilent, Hother; [done | |].
    + rewrite Hid. intros ->.
      apply (Hnone i {| t_id := t_id t; t_pc := Runnable.pc res |}); [| done].
      apply list_lookup_insert_eq. by eapply lookup_lt_Some.
    + intros j t0 Hj Ht0.
      destruct (decide (j = i)) as [-> | Hji].
      * simplify_eq.
        apply (Hnone i {| t_id := t_id t; t_pc := Runnable.pc res |}); [| done].
        apply list_lookup_insert_eq. by eapply lookup_lt_Some.
      * apply (Hnone j t0); [| done]. by rewrite list_lookup_insert_ne.
Qed.

Lemma ordered_for_step id st a :
  ordered_for id st →
  fresh_uuid st a = true → own_resume_while_running id st a = true →
  ordered_for id (step st a).
Proof.
  intros Hst Hfresh Hres. destruct a as [options env | | | |i r].
  - apply ordered_for_upload; [done |]. simpl in Hfresh. by case_match.
  - by apply ordered_for_bridge.
  - by apply ordered_for_bridge.
  - by apply ordered_for_bridge.
  - by apply ordered_for_work.
Qed.

Lemma ordered_for_exec id sched st :
  ordered_for id st →
  along fresh_uuid st sched = true →
  along (own_resume_while_running id) st sched = true →
  ordered_for id (exec sched st).
Proof.
  revert st. induction sched as [| a sched IH]; intros st Hst Hf Hr; [done |].
  simpl in Hf, Hr.
  apply andb_true_iff in Hf as [Hf Hf'], Hr as [Hr Hr'].
  apply IH; [by apply ordered_for_step | done | done].
Qed.


Lemma since_same st : since st st = [].
Proof. unfold since. by rewrite drop_all. Qed.

Lemma ran_submit i st st' o id :
  Plugin.pool st' = (Plugin.pool st ++ [{| t_id := id; t_pc := Queued |}])%list →
  ran i st o → ran i st' o.
Proof.
  unfold ran. intros ->.
  destruct (Plugin.pool st !! i) as [t |] eqn:Hi.
  - by rewrite (lookup_app_l_Some _ _ _ _ Hi).
  - intros ->. case_match eqn:Hi'; [| done].
    apply lookup_app_Some in Hi' as [Hi' | [_ Hi']]; [congruence |].
    destruct (i - length (Plugin.pool st))%nat; simplify_eq/=.
    split; [done |]. by intros ev ?%elem_of_nil.
Qed.

Lemma ran_step i st a o :
  keyed st → ran i st o → ran i (step st a) (o ++ emitted i st a).
Proof.
  intros Hkey Hran.
  destruct a as [options env | uploadId | uploadId | uploadId fin | j r].
  - simpl. rewrite app_nil_r.
    destruct (upload_cases options env st)
      as [_ [[_ Hpool] | (e & _ & _ & _ & Hpool)]].
    + unfold ran. by rewrite Hpool.
    + by eapply ran_submit.
  - rewrite app_nil_r.
    destruct (bridge_cases (CallPause uploadId) st eq_refl)
      as [-> | (id & e & e' & calls & _ & _ & _ & _ & _ & [Hpool | (_ & _ & Hpool)])];
      [done | | by eapply ran_submit].
    unfold ran. by rewrite Hpool.
  - rewrite app_nil_r.
    destruct (bridge_cases (CallResume uploadId) st eq_refl)
      as [-> | (id & e & e' & calls & _ & _ & _ & _ & _ & [Hpool | (_ & _ & Hpool)])];
      [done | | by eapply ran_submit].
    unfold ran. by rewrite Hpool.
  - rewrite app_nil_r.
    destruct (bridge_cases (CallAbort uploadId fin) st eq_refl)
      as [-> | (id & e & e' & calls & _ & _ & _ & _ & _ & [Hpool | (_ & _ & Hpool)])];
      [done | | by eapply ran_submit].
    unfold ran. by rewrite Hpool.
  - unfold emitted. simpl.
    destruct (work_cases j r st) as [-> | (t & e & res & Hj & He & Hstep & ->)].
    { rewrite since_same. destruct (j =? i)%nat; by rewrite app_nil_r. }
    unfold since; simpl. rewrite drop_app_length.
    unfold ran in *; simpl.
    destruct (Nat.eqb_spec j i) as [-> | Hne].
    + rewrite Hj in Hran. destruct Hran as [Hord Hids].
      rewrite list_lookup_insert_eq by (by eapply lookup_lt_Some). simpl.
      pose proof (Hkey _ _ He) as Hid.
      destruct (step_kinds _ _ _ _ _ _ Hstep) as [Hk _].
      split.
      * rewrite kinds_app, order_app, Hord, <- Hid. exact Hk.
      * intros ev [Hin | Hin]%elem_of_app; [eauto |].
        destruct (step_events _ _ _ _ _ _ ev Hstep Hin) as [-> _]. done.
    + rewrite list_lookup_insert_ne by done. by rewrite app_nil_r.
Qed.

Lemma ran_exec i sched st o :
  keyed st → ran i st o → ran i (exec sched st) (o ++ emitted_by i st sched).
Proof.
  revert st o. induction sched as [| a sched IH]; intros st o Hkey Hran; simpl.
  { by rewrite app_nil_r. }
  rewrite app_assoc. apply IH; [by apply keyed_step | by apply ran_step].
Qed.

(** C1, as the code has it.  The ids being fresh:
    - for a session on which [resume] is called only while its run is
      executing, whatever is called on the other sessions, the events that
      carry its upload id are, in order: nothing yet, or onStart followed by
      onProgress events, or onStart, onProgress events and one terminal
      event (onSuccess or onError) after which there is nothing.  Which of
      the three it is follows the place of the session's thread: when the
      run has sent its terminal event or has returned, the sequence is
      complete and has exactly one terminal event;
    - in every schedule, whatever is resumed, what one task (one run of a
      session) sends is in that order, follows the place of its thread in the
      same way, and carries the id of its session;
    - a [resume] that finds [isRunning] false submits the session again, as
      a new task at the end of the pool. *)
Theorem events_in_order sched id :
  along fresh_uuid Plugin.init sched = true →
  let st := exec sched Plugin.init in
  (along (own_resume_while_running id) Plugin.init sched = true →
   let ks := kinds id (Plugin.trace st) in
   (ks = [] ∨
    (∃ n, ks = KStart :: replicate n KProgress) ∨
    (∃ n k, ks = (KStart :: replicate n KProgress ++ [k])%list ∧
            terminal k = true)) ∧
   ∀ j t, Plugin.pool st !! j = Some t → t_id t = id →
          match t_pc t with
          | Queued | AtStart => ks = []
          | AtExit | Done =>
              ∃ n k, ks = (KStart :: replicate n KProgress ++ [k])%list ∧
                     terminal k = true
          | _ => ∃ n, ks = KStart :: replicate n KProgress
          end) ∧
  (∀ i t, Plugin.pool st !! i = Some t →
     let ks := kinds (t_id t) (emitted_by i Plugin.init sched) in
     match t_pc t with
     | Queued | AtStart => ks = []
     | AtExit | Done =>
         ∃ n k, ks = (KStart :: replicate n KProgress ++ [k])%list ∧
                terminal k = true
     | _ => ∃ n, ks = KStart :: replicate n KProgress
     end ∧
     ∀ ev, Notify ev ∈ emitted_by i Plugin.init sched → event_id ev = t_id t) ∧
  (∀ e, registered id st = Some e → Runnable.isRunning e = false →
     Plugin.pool (step st (CallResume (Some id)))
       = (Plugin.pool st ++ [{| t_id := id; t_pc := Queued |}])%list).
Proof.
  intros Hf st.
  assert (∀ at_ ks, shape (phase at_) ks →
            match at_ with
            | Queued | AtStart => ks = []
            | AtExit | Done =>
                ∃ n k, ks = (KStart :: replicate n KProgress ++ [k])%list ∧
                       terminal k = true
            | _ => ∃ n, ks = KStart :: replicate n KProgress
            end) as Hplaced.
  { intros at_ ks Hks. by destruct at_. }
  split_and!.
  - intros Hr ks.
    destruct (ordered_for_exec id sched Plugin.init (ordered_for_init id) Hf Hr)
      as [_ _ _ Hphase Hsilent]. fold st in Hphase, Hsilent.
    assert (∀ j t, Plugin.pool st !! j = Some t → t_id t = id →
                   shape (phase (t_pc t)) ks) as Htask.
    { intros j t Hj Hid. rewrite <- (Hphase j t Hj Hid). apply order_shape. }
    split; [| intros j t Hj Hid; apply Hplaced; by apply (Htask j)].
    destruct (decide (id ∈ t_id <$> Plugin.pool st)) as [Hin | Hnot].
    + apply list_elem_of_fmap in Hin as (t & -> & [j Hj]%list_elem_of_lookup).
      specialize (Htask j t Hj eq_refl).
      destruct (phase (t_pc t)) eqn:Hp; simpl in Htask; auto.
      by destruct (t_pc t).
    + left. apply Hsilent. intros j t Hj Hid. apply Hnot.
      apply list_elem_of_fmap. exists t. split; [done |].
      by eapply list_elem_of_lookup_2.
  - intros i t Hi ks.
    pose proof (ran_exec i sched Plugin.init [] keyed_init eq_refl) as Hran.
    unfold ran in Hran. fold st in Hran. rewrite Hi in Hran. simpl in Hran.
    destruct Hran as [Hord Hids]. split; [| done].
    apply Hplaced. rewrite <- Hord. apply order_shape.
  - intros e He Hrun. unfold registered in He. simpl.
    unfold Plugin.resume. rewrite He. unfold Runnable.isRunning'. simpl.
    by rewrite Hrun.
Qed.

Lemma chunks_by_app i (o o' : list Obs) :
  chunks_by i (o ++ o') = (chunks_by i o + chunks_by i o')%nat.
Proof. unfold chunks_by. by rewrite filter_app, length_app. Qed.

Lemma attempts_by_app i (o o' : list Obs) :
  attempts_by i (o ++ o') = (attempts_by i o + attempts_by i o')%nat.
Proof. unfold attempts_by. by rewrite filter_app, length_app. Qed.

Lemma chunks_by_bridge i id (calls : list EngineCall) :
  chunks_by i (Call Bridge id <$> calls) = 0%nat.
Proof.
  unfold chunks_by. induction calls as [| c calls IH]; [done |].
  rewrite fmap_cons, filter_cons_False; [done |]. by destruct c.
Qed.

(** With [shouldFinish] set, a step of thread [i] sends a chunk only if the
    thread has one left in its loop, or gets one by a new attempt. *)
Lemma step_budget i inst r at_ e res :
  Runnable.shouldFinish e = true →
  Runnable.step i inst r at_ e = Some res →
  (chunks_by i (Runnable.obs res) + budget (Runnable.pc res)
   ≤ budget at_ + attempts_by i (Runnable.obs res))%nat.
Proof.
  intros Hfin Hstep. step_cases Hstep.
  all: unfold chunks_by, attempts_by; simpl.
  all: rewrite ?filter_cons_True, ?filter_cons_False, ?filter_nil
         by (simpl; rewrite ?Nat.eqb_refl; done).
  all: simpl; try lia.
  all: rewrite ?Hfin, ?andb_false_r in *; simplify_eq/=; lia.
Qed.

Lemma step_other_thread i j inst r at_ e res :
  i ≠ j →
  Runnable.step j inst r at_ e = Some res →
  chunks_by i (Runnable.obs res) = 0%nat.
Proof.
  intros Hne Hstep.
  assert (Nat.eqb i j = false) as Hij by by apply Nat.eqb_neq.
  step_cases Hstep; unfold chunks_by; simpl; try done.
  all: rewrite filter_cons_False; simpl; rewrite ?Hij; done.
Qed.

Lemma budget_upload options env st i t e :
  Plugin.pool st !! i = Some t →
  Plugin.executorsMap st !! t_id t = Some e →
  Runnable.shouldFinish e = true →
  Plugin.executorsMap st !! randomUUID env = None →
  within_budget i t st (Plugin.upload options env st).1.
Proof.
  intros Hi He Hfin Hfresh.
  destruct (upload_cases options env st)
    as [Htr [[Hreg Hpool] | (e0 & _ & _ & Hreg & Hpool)]].
  all: exists [], t, e; rewrite app_nil_r, Hreg, Hpool.
  all: split_and!; try done; try (unfold chunks_by, attempts_by; simpl; lia).
  - by apply lookup_app_l_Some.
  - rewrite lookup_insert_ne; [done |]. congruence.
Qed.

Lemma budget_bridge a st i t e :
  bridge_command a = true →
  Plugin.pool st !! i = Some t →
  Plugin.executorsMap st !! t_id t = Some e →
  Runnable.shouldFinish e = true →
  within_budget i t st (step st a).
Proof.
  intros Ha Hi He Hfin.
  destruct (bridge_cases a st Ha)
    as [-> | (id & e0 & e' & calls & He0 & (_ & _ & _ & Hmono) & _ & Hreg & Htr & Hpool)].
  { exists [], t, e. rewrite app_nil_r. split_and!; try done.
    unfold chunks_by, attempts_by; simpl; lia. }
  assert (Plugin.pool (step st a) !! i = Some t) as Hi'.
  { destruct Hpool as [-> | (_ & _ & ->)]; [done |]. by apply lookup_app_l_Some. }
  assert (∃ e1, Plugin.executorsMap (step st a) !! t_id t = Some e1 ∧
                Runnable.shouldFinish e1 = true) as (e1 & He1 & Hfin1).
  { rewrite Hreg. destruct (decide (id = t_id t)) as [-> | Hne].
    - rewrite lookup_insert_eq. exists e'. split; [done |].
      apply Hmono. congruence.
    - rewrite lookup_insert_ne by done. eauto. }
  exists (Call Bridge id <$> calls), t, e1.
  split_and!; try done. rewrite chunks_by_bridge. lia.
Qed.

Lemma budget_work j r st i t e :
  Plugin.pool st !! i = Some t →
  Plugin.executorsMap st !! t_id t = Some e →
  Runnable.shouldFinish e = true →
  within_budget i t st (Plugin.work j r st).
Proof.
  intros Hi He Hfin.
  destruct (work_cases j r st) as [-> | (tj & ej & res & Hj & Hej & Hstep & ->)].
  { exists [], t, e. rewrite app_nil_r. split_and!; try done.
    unfold chunks_by, attempts_by; simpl; lia. }
  destruct (step_keeps_flags _ _ _ _ _ _ Hstep) as [Hflag _].
  destruct (decide (i = j)) as [<- | Hne].
  - simplify_eq.
    exists (Runnable.obs res), {| t_id := t_id t; t_pc := Runnable.pc res |},
           (Runnable.session res); simpl.
    split_and!; try done.
    + apply list_lookup_insert_eq. by eapply lookup_lt_Some.
    + apply lookup_insert_eq.
    + congruence.
    + by eapply step_budget.
  - assert (∃ e1, <[t_id tj := Runnable.session res]> (Plugin.executorsMap st)
                    !! t_id t = Some e1 ∧
                  Runnable.shouldFinish e1 = true) as (e1 & He1 & Hfin1).
    { destruct (decide (t_id tj = t_id t)) as [Heq | Hne'].
      - rewrite Heq, lookup_insert_eq. exists (Runnable.session res).
        split; [done |]. rewrite Heq in Hej. congruence.
      - rewrite lookup_insert_ne by done. eauto. }
    exists (Runnable.obs res), t, e1; simpl. split_and!; try done.
    + by rewrite list_lookup_insert_ne.
    + rewrite (step_other_thread i j _ _ _ _ _ Hne Hstep). lia.
Qed.

Lemma budget_step st a i t e :
  Plugin.pool st !! i = Some t →
  Plugin.executorsMap st !! t_id t = Some e →
  Runnable.shouldFinish e = true →
  fresh_uuid st a = true →
  within_budget i t st (step st a).
Proof.
  intros Hi He Hfin Hfresh. destruct a as [options env | | | | j r].
  - apply (budget_upload _ _ _ _ _ e); try done.
    simpl in Hfresh. by case_match.
  - by apply (budget_bridge _ _ _ _ e).
  - by apply (budget_bridge _ _ _ _ e).
  - by apply (budget_bridge _ _ _ _ e).
  - by apply (budget_work _ _ _ _ _ e).
Qed.

Lemma budget_exec sched st i t e :
  Plugin.pool st !! i = Some t →
  Plugin.executorsMap st !! t_id t = Some e →
  Runnable.shouldFinish e = true →
  along fresh_uuid st sched = true →
  ∃ o, Plugin.trace (exec sched st) = (Plugin.trace st ++ o)%list ∧
       (chunks_by i o ≤ budget (t_pc t) + attempts_by i o)%nat.
Proof.
  revert st t e. induction sched as [| a sched IH]; intros st t e Hi He Hfin Hf.
  { exists []. rewrite app_nil_r. split; [done |].
    unfold chunks_by; simpl; lia. }
  simpl in Hf. apply andb_true_iff in Hf as [Hf Hf'].
  destruct (budget_step st a i t e Hi He Hfin Hf)
    as (o & t' & e' & Htr & Hi' & Hid & He' & Hfin' & Hle).
  rewrite <- Hid in He'.
  destruct (IH (step st a) t' e' Hi' He' Hfin' Hf') as (o' & Htr' & Hle').
  exists (o ++ o')%list. split.
  - change (exec (a :: sched) st) with (exec sched (step st a)).
    by rewrite Htr', Htr, app_assoc.
  - rewrite chunks_by_app, attempts_by_app. lia.
Qed.

Lemma chunks_by_cons i x (o : list Obs) :
  chunks_by i (x :: o)
    = ((if calls_by UploadChunk i x then 1 else 0) + chunks_by i o)%nat.
Proof.
  unfold chunks_by. rewrite filter_cons.
  destruct (calls_by UploadChunk i x); by case_decide.
Qed.

Lemma attempts_by_cons i x (o : list Obs) :
  attempts_by i (x :: o)
    = ((if calls_by ResumeOrCreateUpload i x then 1 else 0) + attempts_by i o)%nat.
Proof.
  unfold attempts_by. rewrite filter_cons.
  destruct (calls_by ResumeOrCreateUpload i x); by case_decide.
Qed.

Lemma attempts_by_bridge i id (calls : list EngineCall) :
  attempts_by i (Call Bridge id <$> calls) = 0%nat.
Proof.
  induction calls as [| c calls IH]; [done |].
  rewrite fmap_cons, attempts_by_cons, IH. by destruct c.
Qed.

(** Observations without a call of task [i] do not count. *)
Lemma chunks_per_attempt_none i (o o' : list Obs) :
  chunks_by i o = 0%nat → attempts_by i o = 0%nat →
  chunks_per_attempt i (o ++ o') = chunks_per_attempt i o'.
Proof.
  induction o as [| x o IH]; [done |].
  rewrite chunks_by_cons, attempts_by_cons. simpl.
  destruct (calls_by ResumeOrCreateUpload i x); [lia |].
  destruct (calls_by UploadChunk i x); [lia |]. simpl. auto.
Qed.

Lemma chunks_per_attempt_chunk i (o o' : list Obs) n ns :
  chunks_by i o = 1%nat → attempts_by i o = 0%nat →
  chunks_per_attempt i o' = n :: ns →
  chunks_per_attempt i (o ++ o') = S n :: ns.
Proof.
  intros Hc Ha Ho'. induction o as [| x o IH]; [done |].
  rewrite chunks_by_cons in Hc. rewrite attempts_by_cons in Ha. simpl.
  destruct (calls_by ResumeOrCreateUpload i x); [lia |].
  destruct (calls_by UploadChunk i x); simpl in *.
  - rewrite chunks_per_attempt_none, Ho' by lia. done.
  - auto.
Qed.

Lemma chunks_per_attempt_attempt i (o o' : list Obs) :
  chunks_by i o = 0%nat → attempts_by i o = 1%nat →
  chunks_per_attempt i (o ++ o') = 0%nat :: chunks_per_attempt i o'.
Proof.
  intros Hc Ha. induction o as [| x o IH]; [done |].
  rewrite chunks_by_cons in Hc. rewrite attempts_by_cons in Ha. simpl.
  destruct (calls_by ResumeOrCreateUpload i x) eqn:Hx; simpl in *.
  - rewrite chunks_per_attempt_none by lia. done.
  - destruct (calls_by UploadChunk i x); simpl in *; [lia | auto].
Qed.

(** An action makes at most one call of the engine for a task. *)
Lemma step_one_call st a i :
  ∃ o, Plugin.trace (step st a) = (Plugin.trace st ++ o)%list ∧
       (chunks_by i o + attempts_by i o ≤ 1)%nat.
Proof.
  assert (∃ o, Plugin.trace st = (Plugin.trace st ++ o)%list ∧
               (chunks_by i o + attempts_by i o ≤ 1)%nat) as Hsame.
  { exists []. rewrite app_nil_r. split; [done |]. unfold chunks_by, attempts_by; simpl; lia. }
  assert (∀ a, bridge_command a = true →
          ∃ o, Plugin.trace (step st a) = (Plugin.trace st ++ o)%list ∧
               (chunks_by i o + attempts_by i o ≤ 1)%nat) as Hbridge.
  { intros a' Ha.
    destruct (bridge_cases a' st Ha)
      as [-> | (id & e & e' & calls & _ & _ & _ & _ & Htr & _)]; [done |].
    eexists. split; [exact Htr |].
    rewrite chunks_by_bridge, attempts_by_bridge. lia. }
  destruct a as [options env | uploadId | uploadId | uploadId fin | j r]; auto.
  - simpl. destruct (upload_cases options env st) as [-> _]. done.
  - simpl. destruct (work_cases j r st) as [-> | (t & e & res & _ & _ & Hstep & ->)];
      [done |].
    eexists. split; [done |]. simpl.
    step_cases Hstep.
    all: rewrite ?chunks_by_cons, ?attempts_by_cons; simpl.
    all: unfold chunks_by, attempts_by; simpl.
    all: destruct (i =? j)%nat; simpl; lia.
Qed.

Lemma budget_le_1 at_ : (budget at_ ≤ 1)%nat.
Proof. destruct at_; simpl; lia. Qed.

Lemma per_attempt_exec sched st i t e :
  Plugin.pool st !! i = Some t →
  Plugin.executorsMap st !! t_id t = Some e →
  Runnable.shouldFinish e = true →
  along fresh_uuid st sched = true →
  ∃ o n ns, Plugin.trace (exec sched st) = (Plugin.trace st ++ o)%list ∧
            chunks_per_attempt i o = n :: ns ∧
            (n ≤ budget (t_pc t))%nat ∧ Forall (λ n, (n ≤ 1)%nat) ns.
Proof.
  revert st t e. induction sched as [| a sched IH]; intros st t e Hi He Hfin Hf.
  { exists [], 0%nat, []. rewrite app_nil_r. split_and!; try done. lia. }
  simpl in Hf. apply andb_true_iff in Hf as [Hf Hf'].
  destruct (budget_step st a i t e Hi He Hfin Hf)
    as (o & t' & e' & Htr & Hi' & Hid & He' & Hfin' & Hle).
  destruct (step_one_call st a i) as (o1 & Htr1 & Hone).
  rewrite Htr in Htr1. apply app_inv_head in Htr1 as <-.
  rewrite <- Hid in He'.
  destruct (IH (step st a) t' e' Hi' He' Hfin' Hf') as (o' & n & ns & Htr' & Hn & Hb & Hns).
  pose proof (budget_le_1 (t_pc t')) as Hb'.
  assert (Plugin.trace (exec (a :: sched) st) = (Plugin.trace st ++ o ++ o')%list)
    as Hall.
  { change (exec (a :: sched) st) with (exec sched (step st a)).
    by rewrite Htr', Htr, app_assoc. }
  exists (o ++ o')%list.
  destruct (chunks_by i o) as [| [| c]] eqn:Hc;
    destruct (attempts_by i o) as [| [| k]] eqn:Hk; try lia.
  - exists n, ns. rewrite chunks_per_attempt_none by done.
    split_and!; try done. lia.
  - exists 0%nat, (n :: ns). rewrite chunks_per_attempt_attempt, Hn by done.
    split_and!; try done; [lia |]. constructor; [lia | done].
  - exists (S n), ns. rewrite (chunks_per_attempt_chunk i o o' n ns) by done.
    split_and!; try done. lia.
Qed.

(** C4, as the code has it.  Once [shouldFinish] is set, a thread sends at
    most one more chunk in the attempt it is in (none when it has already
    sent the chunk of the current iteration), and at most one chunk in every
    attempt it starts later: the loop condition calls [uploadChunk()] before
    it reads the flag.  The wait of a paused session is left at once, for
    the same chunk.  After a chunk the loop condition leaves the loop
    whatever [uploadChunk()] returned, and the next step calls [finish] of
    the engine. *)
Theorem shouldFinish_one_more_chunk sched st i t e :
  Plugin.pool st !! i = Some t →
  registered (t_id t) st = Some e →
  Runnable.shouldFinish e = true →
  along fresh_uuid st sched = true →
  (chunks_by i (since st (exec sched st))
   ≤ budget (t_pc t) + attempts_by i (since st (exec sched st)))%nat ∧
  (∃ n ns,
     chunks_per_attempt i (since st (exec sched st)) = n :: ns ∧
     (n ≤ budget (t_pc t))%nat ∧ Forall (λ n, (n ≤ 1)%nat) ns) ∧
  (∀ inst,
     Runnable.step i inst Silent AtPause e
       = Some {| Runnable.session := e; Runnable.instance := inst;
                 Runnable.pc := AtProgress; Runnable.obs := [] |} ∧
     Runnable.step i inst Slept AtPause e = None) ∧
  (∀ n inst, ∃ res,
     Runnable.step i inst Silent (AtLoopCond n) e = Some res ∧
     Runnable.pc res = AtFinish ∧ Runnable.obs res = []) ∧
  (∀ inst, ∃ res,
     Runnable.step i inst Finished AtFinish e = Some res ∧
     Runnable.obs res = [Call (Worker i) (Runnable.uploadId e) Finish]).
Proof.
  intros Hi He Hfin Hf. split_and!.
  - destruct (budget_exec sched st i t e Hi He Hfin Hf) as (o & Htr & Hle).
    unfold since. by rewrite Htr, drop_app_length.
  - destruct (per_attempt_exec sched st i t e Hi He Hfin Hf)
      as (o & n & ns & Htr & Hn & Hb & Hns).
    exists n, ns. unfold since. by rewrite Htr, drop_app_length.
  - intros inst. simpl. by rewrite Hfin, andb_false_r.
  - intros n inst. simpl. rewrite Hfin, andb_false_r. eauto.
  - intros inst. simpl. eauto.
Qed.







Lemma step_events_of i inst r at_ e res id :
  Runnable.step i inst r at_ e = Some res →
  id ≠ Runnable.uploadId e → events_of id (Runnable.obs res) = [].
Proof.
  intros Hstep Hid. step_cases Hstep; try done.
  all: by destruct (String.eqb_spec (Runnable.uploadId e) id).
Qed.

Lemma elem_of_events_of id ev tr :
  ev ∈ events_of id tr → Notify ev ∈ tr.
Proof.
  induction tr as [| [e | who id' c] tr IH]; simpl; [by intros ?%elem_of_nil | |].
  - case_match.
    + intros [-> | Hin]%elem_of_cons; [apply elem_of_cons; by left |].
      apply elem_of_cons. right. auto.
    + intros Hin. apply elem_of_cons. right. auto.
  - intros Hin. apply elem_of_cons. right. auto.
Qed.

Lemma echoed_bridge a st id e :
  bridge_command a = true →
  Plugin.executorsMap st !! id = Some e →
  echoed id e st (step st a).
Proof.
  intros Ha He.
  destruct (bridge_cases a st Ha)
    as [-> | (id0 & e0 & e' & calls & He0 & (Hup & _) & _ & Hreg & Htr & _)].
  { exists [], e. rewrite app_nil_r. split_and!; try done.
    by intros ev ?%elem_of_nil. }
  assert (∃ e1, Plugin.executorsMap (step st a) !! id = Some e1 ∧
                Runnable.upload e1 = Runnable.upload e) as (e1 & He1 & Hup1).
  { rewrite Hreg. destruct (decide (id0 = id)) as [-> | Hne].
    - rewrite lookup_insert_eq. exists e'. split; [done |]. congruence.
    - rewrite lookup_insert_ne by done. eauto. }
  exists (Call Bridge id0 <$> calls), e1. split_and!; try done.
  rewrite events_of_calls. by intros ev ?%elem_of_nil.
Qed.

Lemma echoed_step st a id e :
  keyed st →
  Plugin.executorsMap st !! id = Some e →
  fresh_uuid st a = true →
  echoed id e st (step st a).
Proof.
  intros Hkey He Hfresh.
  destruct a as [options env | uploadId | uploadId | uploadId fin | j r].
  - simpl in *. exists [], e. rewrite app_nil_r.
    destruct (upload_cases options env st)
      as [-> [[-> _] | (e0 & _ & _ & -> & _)]].
    + split_and!; try done. by intros ev ?%elem_of_nil.
    + split_and!; try done; [| by intros ev ?%elem_of_nil].
      rewrite lookup_insert_ne; [done |]. intros Heq.
      by rewrite Heq, He in Hfresh.
  - by apply echoed_bridge.
  - by apply echoed_bridge.
  - by apply echoed_bridge.
  - simpl. destruct (work_cases j r st) as [-> | (t & e0 & res & _ & He0 & Hstep & ->)].
    { exists [], e. rewrite app_nil_r. split_and!; try done.
      by intros ev ?%elem_of_nil. }
    simpl. destruct (decide (t_id t = id)) as [Hid | Hne].
    + rewrite Hid in *. simplify_eq.
      exists (Runnable.obs res), (Runnable.session res).
      split_and!; try done.
      * apply lookup_insert_eq.
      * by destruct (step_keeps_upload _ _ _ _ _ _ Hstep).
      * intros ev Hev%elem_of_events_of.
        by destruct (step_events _ _ _ _ _ _ _ Hstep Hev).
    + exists (Runnable.obs res), e. split_and!; try done.
      * simpl. by rewrite lookup_insert_ne.
      * rewrite (step_events_of _ _ _ _ _ _ id Hstep).
        -- by intros ev ?%elem_of_nil.
        -- rewrite (Hkey _ _ He0). done.
Qed.

Lemma echoed_exec sched st id e :
  keyed st →
  Plugin.executorsMap st !! id = Some e →
  along fresh_uuid st sched = true →
  echoed id e st (exec sched st).
Proof.
  revert st e. induction sched as [| a sched IH]; intros st e Hkey He Hf.
  { exists [], e. rewrite app_nil_r. split_and!; try done.
    by intros ev ?%elem_of_nil. }
  simpl in Hf. apply andb_true_iff in Hf as [Hf Hf'].
  destruct (echoed_step st a id e Hkey He Hf) as (o & e1 & Htr & He1 & Hup & Hev).
  destruct (IH (step st a) e1 (keyed_step _ _ Hkey) He1 Hf')
    as (o' & e2 & Htr' & He2 & Hup' & Hev').
  exists (o ++ o')%list, e2.
  change (exec (a :: sched) st) with (exec sched (step st a)).
  split_and!; [by rewrite Htr', Htr, app_assoc | done | congruence |].
  intros ev. rewrite events_of_app.
  intros [Hin | Hin]%elem_of_app; [by apply Hev |].
  rewrite <- Hup. by apply Hev'.
Qed.

Lemma step_to_chunk i inst r at_ e res :
  Runnable.step i inst r at_ e = Some res →
  Runnable.pc res = AtChunk →
  Runnable.session res = e ∧
  ∃ u, Runnable.uploader e = Some u ∧
       Runnable.obs res =
         [Notify (onProgress (Runnable.uploadId e)
                    (Runnable.progress (offset u) (size (Runnable.upload e)))
                    (offset u) (size (Runnable.upload e))
                    (metadata (Runnable.upload e)))].
Proof. intros Hstep Hpc. step_cases Hstep. eauto. Qed.

Lemma announced_for_init id : announced_for id Plugin.init.
Proof. by intros j t e. Qed.

Lemma announced_for_upload id options env st :
  ordered_for id st → announced_for id st →
  Plugin.executorsMap st !! randomUUID env = None →
  announced_for id (Plugin.upload options env st).1.
Proof.
  intros Hst Hann Hfresh j t e.
  destruct (upload_cases options env st)
    as [-> [[-> ->] | (e0 & _ & _ & -> & ->)]]; [apply Hann |].
  intros [Hj | [_ Hj]]%lookup_app_Some Hid Hpc.
  - destruct (of_known id st Hst j t Hj) as [e' He'].
    rewrite lookup_insert_ne by congruence. by apply (Hann j t).
  - destruct (j - length (Plugin.pool st))%nat; by simplify_eq/=.
Qed.

Lemma announced_for_bridge id a st :
  bridge_command a = true →
  announced_for id st → announced_for id (step st a).
Proof.
  intros Ha Hann.
  destruct (bridge_cases a st Ha)
    as [-> | (id0 & e0 & e' & calls & He0 & (Hup & _ & Hu & _) & _ & Hreg & Htr & Hpool)];
    [done |].
  intros j t e Hj Hid Hpc.
  rewrite Hreg, Htr, events_of_app, events_of_calls, app_nil_r.
  assert (Plugin.pool st !! j = Some t) as Hj'.
  { destruct Hpool as [Hpool | (_ & _ & Hpool)]; rewrite Hpool in Hj; [done |].
    apply lookup_app_Some in Hj as [Hj | [_ Hj]]; [done |].
    destruct (j - length (Plugin.pool st))%nat; by simplify_eq/=. }
  destruct (decide (id0 = id)) as [-> | Hne].
  - rewrite lookup_insert_eq. intros [= <-].
    destruct (Hann j t e0 Hj' Hid Hpc He0) as (u & Hu0 & Hlast).
    exists u. rewrite Hu, Hup. done.
  - rewrite lookup_insert_ne by done. by apply (Hann j t).
Qed.

Lemma announced_for_work id i r st :
  ordered_for id st → announced_for id st →
  announced_for id (Plugin.work i r st).
Proof.
  intros Hst Hann.
  destruct (work_cases i r st) as [-> | (ti & ei & res & Hi & Hei & Hstep & ->)];
    [done |].
  pose proof (of_keyed id st Hst _ _ Hei) as Hid.
  intros j t e; simpl. rewrite events_of_app.
  destruct (decide (i = j)) as [<- | Hne].
  - rewrite list_lookup_insert_eq by (by eapply lookup_lt_Some).
    intros [= <-]; simpl. intros <- Hpc. rewrite lookup_insert_eq. intros [= <-].
    destruct (step_to_chunk _ _ _ _ _ _ Hstep Hpc) as (-> & u & Hu & ->).
    exists u. split; [done |]. simpl.
    rewrite Hid, String.eqb_refl. by rewrite last_snoc.
  - rewrite list_lookup_insert_ne by done. intros Hj Ht Hpc.
    assert (t_id ti ≠ id) as Hids.
    { intros Heq. apply Hne. by apply (of_one id st Hst i j ti t). }
    rewrite lookup_insert_ne by done.
    rewrite (step_events_of _ _ _ _ _ _ id Hstep), app_nil_r by congruence.
    intros He. exact (Hann j t e Hj Ht Hpc He).
Qed.

Lemma announced_for_step id st a :
  ordered_for id st → announced_for id st →
  fresh_uuid st a = true →
  announced_for id (step st a).
Proof.
  intros Hst Hann Hfresh.
  destruct a as [options env | uploadId | uploadId | uploadId fin | j r].
  - apply announced_for_upload; [done | done |]. simpl in Hfresh. by case_match.
  - by apply announced_for_bridge.
  - by apply announced_for_bridge.
  - by apply announced_for_bridge.
  - by apply announced_for_work.
Qed.

Lemma announced_for_exec id sched st :
  ordered_for id st → announced_for id st →
  along fresh_uuid st sched = true →
  along (own_resume_while_running id) st sched = true →
  announced_for id (exec sched st).
Proof.
  revert st. induction sched as [| a sched IH]; intros st Hst Hann Hf Hr; [done |].
  simpl in Hf, Hr.
  apply andb_true_iff in Hf as [Hf Hf'], Hr as [Hr Hr'].
  apply IH; [by apply ordered_for_step | by apply announced_for_step | done | done].
Qed.

(** C3, as the code has it.  A successful upload call registers a session
    whose metadata is the caller's with the entry [filename] set to the
    derived file name, whether or not the caller supplied one: a caller's
    [filename] is replaced, every other entry is the caller's.  Whatever
    happens afterwards (the ids being fresh), the session keeps this
    metadata, and every event sent with its upload id carries it as
    context. *)
Theorem filename_always_set (options : UploadOptions) (env : UploadEnv)
    (st st' : Plugin.State) (data : list (string * JSValue)) :
  keyed st →
  Plugin.executorsMap st !! randomUUID env = None →
  Plugin.upload (Some options) env st = (st', Resolved data) →
  ∃ e, registered (randomUUID env) st' = Some e ∧
       metadata (Runnable.upload e)
         = <["filename" := Plugin.getFileName (query env)]>
             (default ∅ (o_metadata options)) ∧
       metadata (Runnable.upload e) !! "filename"
         = Some (Plugin.getFileName (query env)) ∧
       (∀ k, k ≠ "filename" →
             metadata (Runnable.upload e) !! k
               = default ∅ (o_metadata options) !! k) ∧
       ∀ sched,
         along fresh_uuid st' sched = true →
         (∃ e', registered (randomUUID env) (exec sched st') = Some e' ∧
                metadata (Runnable.upload e') = metadata (Runnable.upload e)) ∧
         ∀ ev, ev ∈ events_of (randomUUID env) (since st' (exec sched st')) →
               event_context ev = metadata (Runnable.upload e).
Proof.
  intros Hkey _ Hup.
  assert (keyed st') as Hkey'.
  { pose proof (keyed_step st (CallUpload (Some options) env) Hkey) as Hk.
    change (keyed (Plugin.upload (Some options) env st).1) in Hk.
    by rewrite Hup in Hk. }
  assert (∃ e, registered (randomUUID env) st' = Some e ∧
               metadata (Runnable.upload e)
                 = <["filename" := Plugin.getFileName (query env)]>
                     (default ∅ (o_metadata options))) as (e & He & Hmd).
  { unfold Plugin.upload, Runnable.new, registered in *.
    repeat case_match; simplify_eq/=.
    all: eexists; split; [apply lookup_insert_eq | done]. }
  exists e. split_and!; try done.
  - rewrite Hmd. apply lookup_insert_eq.
  - intros k Hk. rewrite Hmd. by rewrite lookup_insert_ne.
  - intros sched Hf.
    destruct (echoed_exec sched st' _ e Hkey' He Hf) as (o & e' & Htr & He' & Hup' & Hev).
    split; [exists e'; split; [done | by rewrite Hup'] |].
    unfold since. by rewrite Htr, drop_app_length.
Qed.

(** C7.  A chunk is sent only by a thread that stands before
    [uploadChunk()], and a thread comes to stand there only through the step
    that reads the offset of the uploader and sends onProgress with the
    upload id, the percentage, that offset as bytesUploaded, the size of the
    upload as totalBytes and the metadata as context.  So in every schedule
    (the ids being fresh and the session not being submitted twice) the last
    event sent with the id of a session whose thread stands before
    [uploadChunk()] is that onProgress, with the current offset of the
    uploader.  The percentage is [bytesUploaded / totalBytes * 100] in
    binary64 arithmetic: the two integers are converted to the nearest
    binary64 numbers, divided, and the quotient is multiplied by 100, each
    operation rounding as IEEE 754 defines; so 0 of 10 bytes is 0, 5 of 10
    is 50, 10 of 10 is 100, and 7 of 100 is 7.000000000000001.  A session
    constructed without a total size has size zero, and with size zero the
    percentage is not a finite number. *)
Theorem progress_before_chunk (sched : list Action) (j : nat) (t : Task)
    (e : Runnable.t) :
  along fresh_uuid Plugin.init sched = true →
  along (own_resume_while_running (t_id t)) Plugin.init sched = true →
  let st := exec sched Plugin.init in
  Plugin.pool st !! j = Some t → t_pc t = AtChunk →
  registered (t_id t) st = Some e →
  (∃ u, Runnable.uploader e = Some u ∧
        last (events_of (t_id t) (Plugin.trace st))
          = Some (onProgress (t_id t)
                    (Runnable.progress (offset u) (size (Runnable.upload e)))
                    (offset u) (size (Runnable.upload e))
                    (metadata (Runnable.upload e))) ∧
        (size (Runnable.upload e) = 0 →
         non_finite (Runnable.progress (offset u) (size (Runnable.upload e)))
           = true)) ∧
  (∀ i inst r at_ e0 res,
     Runnable.step i inst r at_ e0 = Some res →
     (Call (Worker i) (Runnable.uploadId e0) UploadChunk ∈ Runnable.obs res →
      at_ = AtChunk) ∧
     (Runnable.pc res = AtChunk →
      at_ = AtProgress ∧
      ∃ u, Runnable.uploader e0 = Some u ∧
           Runnable.obs res =
             [Notify (onProgress (Runnable.uploadId e0)
                        (Runnable.progress (offset u) (size (Runnable.upload e0)))
                        (offset u) (size (Runnable.upload e0))
                        (metadata (Runnable.upload e0)))])) ∧
  (∀ fileName uploadId endpoint md hd e0,
     Runnable.new None fileName uploadId endpoint md hd = inr e0 →
     size (Runnable.upload e0) = 0) ∧
  (∀ bytesUploaded totalBytes,
     is_long bytesUploaded → is_long totalBytes →
     Prim2SF (Runnable.progress bytesUploaded totalBytes)
       = SF64mul (SF64div (nearest_double bytesUploaded)
                          (nearest_double totalBytes))
                 (nearest_double 100)) ∧
  (Runnable.progress 0 10 = 0%float ∧
   Runnable.progress 5 10 = 50%float ∧
   Runnable.progress 10 10 = 100%float ∧
   Runnable.progress 7 100 = 0x1.c000000000001p+2%float).
Proof.
  intros Hf Hr st Hj Hpc He. split_and!.
  - pose proof (ordered_for_exec _ sched _ (ordered_for_init (t_id t)) Hf Hr)
      as Hst.
    pose proof (announced_for_exec _ sched _ (ordered_for_init (t_id t))
                  (announced_for_init (t_id t)) Hf Hr) as Hann.
    destruct (Hann j t e Hj eq_refl Hpc He) as (u & Hu & Hlast).
    exists u. split_and!; [done | done |].
    intros ->. apply progress_of_zero_total.
  - intros i inst r at_ e0 res Hstep. split.
    + step_cases Hstep; intros Hin; by obs_member.
    + intros Hpc'. step_cases Hstep. eauto.
  - intros fileName uploadId endpoint md hd e0 Hnew.
    unfold Runnable.new in Hnew. by case_match; simplify_eq/=.
  - apply progress_spec.
  - by vm_compute.
  - by vm_compute.
  - by vm_compute.
  - by vm_compute.
Qed.

End Schedules.

(** ** The properties at concrete requests *)

Lemma unknown_uploadId_rejected_witness :
  Plugin.pause (Some "nope") Plugin.init
    = (Plugin.init, Rejected "Invalid or missing uploadId") ∧
  Plugin.resume (Some "nope") Plugin.init
    = (Plugin.init, Rejected "Invalid or missing uploadId") ∧
  Plugin.abort (Some "nope") None Plugin.init
    = (Plugin.init, Rejected "Invalid or missing uploadId").
Proof.
  apply (unknown_uploadId_rejected (Some "nope") None Plugin.init).
  right. exists "nope". split; reflexivity.
Defined.

Lemma upload_empty_endpoint_rejected_witness :
  ∃ msg st',
    @Plugin.upload Sample.platform
      (Some {| o_uri := Some "x"; o_endpoint := Some ""; o_headers := None;
               o_metadata := None; o_chunkSize := None |})
      (Sample.env "u1" (Some "a.bin")) Plugin.init = (st', Rejected msg) ∧
    Plugin.executorsMap st' = Plugin.executorsMap Plugin.init ∧
    Plugin.pool st' = Plugin.pool Plugin.init ∧
    Plugin.trace st' = Plugin.trace Plugin.init.
Proof.
  apply (@upload_empty_endpoint_rejected Sample.platform _ _ _ "x").
  - vm_compute. discriminate.
  - reflexivity.
  - vm_compute. discriminate.
  - reflexivity.
Defined.

Lemma nonpositive_chunkSize_ignored_witness :
  let request := with_chunkSize (Some (-5)) (Sample.options None None) in
  let env := Sample.env "u1" (Some "a.bin") in
  -5 ≤ 0 ∧
  ∃ st',
    @Plugin.upload Sample.platform (Some request) env Plugin.init
      = (st', Resolved [("uploadId", JSString "u1")]) ∧
    (registered "u1"
       (@exec Sample.platform
          [Work 0 Silent; Work 0 Silent;
           Work 0 (Created 0 "https://tus.example/files/1"); Work 0 Silent] st')
     ≫= chunk_of) = Some (6 * 1024 * 1024).
Proof.
  intros request env. split; [lia |].
  destruct (@nonpositive_chunkSize_ignored Sample.platform
              (Sample.options None None) env Plugin.init (-5) ltac:(lia))
    as (_ & _ & _ & _ & Hruns).
  destruct (Hruns "content://media/7" "https://tus.example/files"
              eq_refl ltac:(discriminate) eq_refl eq_refl eq_refl)
    as (st' & e & Hup & _ & Hpool & _ & Hrun).
  exists st'. split; [exact Hup |].
  refine (proj2 (Hrun 0 "https://tus.example/files/1" _)).
  rewrite Hpool. reflexivity.
Defined.

Lemma abort_by_state_witness :
  let st := Sample.run [CallUpload (Some (Sample.options None None))
                          (Sample.env "u1" (Some "a.bin"))] in
  ∃ e, Plugin.executorsMap st !! "u1" = Some e ∧
       Plugin.executorsMap (Plugin.abort (Some "u1") None st).1 !! "u1" = Some e ∧
       Plugin.trace (Plugin.abort (Some "u1") None st).1 = Plugin.trace st ∧
       (Plugin.abort (Some "u1") None st).2 = Resolved [].
Proof.
  intros st. eexists. split; [vm_compute; reflexivity |].
  exact (abort_by_state "u1" None st _ eq_refl).
Defined.

(** C8, where the claim fails: a session that no pool thread has taken yet is
    not executing and has no uploader; [abort] resolves, the engine is not
    called and [shouldFinish] stays false. *)
Lemma abort_before_start_does_nothing :
  let st := Sample.run [CallUpload (Some (Sample.options None None))
                          (Sample.env "u1" (Some "a.bin"))] in
  (Runnable.isRunning <$> registered "u1" st) = Some false ∧
  Plugin.trace (Sample.run Sample.aborted_before_start) = [] ∧
  (Runnable.shouldFinish
     <$> registered "u1" (Sample.run Sample.aborted_before_start)) = Some false.
Proof. vm_compute. done. Qed.

Lemma filename_always_set_witness :
  let options := Sample.options (Some {["filename" := Some "mine.txt"]}) None in
  let env := Sample.env "u1" (Some "a.bin") in
  ∃ e, registered "u1" (@Plugin.upload Sample.platform (Some options) env
                          Plugin.init).1 = Some e ∧
       metadata (Runnable.upload e) !! "filename" = Some (Some "a.bin").
Proof.
  intros options env.
  destruct (@filename_always_set Sample.platform options env Plugin.init
              (@Plugin.upload Sample.platform (Some options) env Plugin.init).1
              [("uploadId", JSString "u1")] keyed_init eq_refl eq_refl)
    as (e & He & _ & Hname & _).
  exists e. split; [exact He | exact Hname].
Defined.

(** C3, where the claim fails: the caller supplies the entry [filename] with
    the value mine.txt, the display name of the source is a.bin, and the
    metadata of the session has a.bin under [filename]. *)
Lemma caller_filename_replaced :
  let options := Sample.options (Some {["filename" := Some "mine.txt"]}) None in
  let st := Sample.run [CallUpload (Some options) (Sample.env "u1" (Some "a.bin"))] in
  default ∅ (o_metadata options) !! "filename" = Some (Some "mine.txt") ∧
  (registered "u1" st ≫= λ e, metadata (Runnable.upload e) !! "filename")
    = Some (Some "a.bin").
Proof. vm_compute. done. Qed.

Lemma progress_before_chunk_witness :
  let st := Sample.run Sample.before_chunk in
  ∃ e, registered "u1" st = Some e ∧
  ∃ u, Runnable.uploader e = Some u ∧
       last (events_of "u1" (Plugin.trace st))
         = Some (onProgress "u1"
                   (Runnable.progress (offset u) (size (Runnable.upload e)))
                   (offset u) (size (Runnable.upload e))
                   (metadata (Runnable.upload e))) ∧
       non_finite (Runnable.progress (offset u) (size (Runnable.upload e)))
         = true.
Proof.
  intros st. eexists. split; [vm_compute; reflexivity |].
  match goal with
  | |- ∃ u, Runnable.uploader ?e = _ ∧ _ =>
      destruct (@progress_before_chunk Sample.platform Sample.before_chunk
                  0%nat {| t_id := "u1"; t_pc := AtChunk |} e
                  eq_refl eq_refl eq_refl eq_refl eq_refl)
        as [(u & Hu & Hlast & Hnf) _]
  end.
  exists u. split_and!; [exact Hu | exact Hlast | exact (Hnf eq_refl)].
Defined.

(** A source without a name: no cursor, no column DISPLAY_NAME or no row. *)
Lemma getFileName_unknown (query : option Cursor) :
  (query = None ∨
   ∃ cursor, query = Some cursor ∧
             (getColumnIndex cursor = -1 ∨ moveToFirst cursor = false)) →
  Plugin.getFileName query = Some "unknown_file".
Proof.
  intros [-> | (cursor & -> & [Hidx | Hrow])]; [done | |]; simpl.
  - by rewrite Hidx.
  - rewrite Hrow. by destruct (getColumnIndex cursor =? -1).
Qed.

(** The fingerprint and the [filename] entry of a new session. *)
Lemma new_fingerprint `{Platform} available fileName uploadId endpoint md hd e :
  Runnable.new available fileName uploadId endpoint md hd = inr e →
  fingerprint (Runnable.upload e) = str fileName +:+ "-" +:+ uploadId ∧
  metadata (Runnable.upload e) !! "filename" = Some fileName.
Proof.
  unfold Runnable.new. case_match; [done |]. intros [= <-]; simpl.
  split; [done | apply lookup_insert_eq].
Qed.

(** C10, where the code departs from the claim: the query returns a row whose
    DISPLAY_NAME is null.  The derived file name is then null and not
    "unknown_file"; the [filename] entry of the metadata is null and the
    fingerprint starts with the text "null". *)
Theorem null_display_name_kept :
  let st := Sample.run [CallUpload (Some (Sample.options None None))
                          (Sample.env "u1" None)] in
  Plugin.getFileName (Sample.named None) = None ∧
  (registered "u1" st ≫= λ e, metadata (Runnable.upload e) !! "filename")
    = Some None ∧
  (fingerprint ∘ Runnable.upload <$> registered "u1" st) = Some "null-u1".
Proof. vm_compute. done. Qed.

Lemma events_in_order_witness :
  @along Sample.platform fresh_uuid Plugin.init Sample.other_resumed = true ∧
  @along Sample.platform (own_resume_while_running "u2") Plugin.init
    Sample.other_resumed = true ∧
  @along Sample.platform resume_while_running Plugin.init
    Sample.other_resumed = false ∧
  (∃ n k,
     kinds "u2"
       (Plugin.trace (@exec Sample.platform Sample.other_resumed Plugin.init))
       = (KStart :: replicate n KProgress ++ [k])%list ∧
     terminal k = true) ∧
  (∃ n k,
     kinds "u1" (@emitted_by Sample.platform 2 Plugin.init Sample.other_resumed)
       = (KStart :: replicate n KProgress ++ [k])%list ∧
     terminal k = true).
Proof.
  assert (@along Sample.platform fresh_uuid Plugin.init Sample.other_resumed
          = true) as Hf by (vm_compute; reflexivity).
  assert (@along Sample.platform (own_resume_while_running "u2") Plugin.init
            Sample.other_resumed = true) as Hr by (vm_compute; reflexivity).
  destruct (@events_in_order Sample.platform Sample.other_resumed "u2" Hf)
    as (Hown & Hrun & _).
  destruct (Hown Hr) as [_ Hdone].
  assert (Plugin.pool (@exec Sample.platform Sample.other_resumed Plugin.init)
            !! 1%nat = Some {| t_id := "u2"; t_pc := Done |}) as H1
    by (vm_compute; reflexivity).
  assert (Plugin.pool (@exec Sample.platform Sample.other_resumed Plugin.init)
            !! 2%nat = Some {| t_id := "u1"; t_pc := Done |}) as H2
    by (vm_compute; reflexivity).
  split_and!; [exact Hf | exact Hr | vm_compute; reflexivity | |].
  - exact (Hdone 1%nat _ H1 eq_refl).
  - exact (proj1 (Hrun 2%nat _ H2)).
Defined.

(** C1, where the claim fails: the run of a session has returned after
    onStart, two onProgress and onSuccess; [resume] is called on it, finds it
    not running and submits it again; the second run sends onStart after the
    terminal event, and a second terminal event. *)
Lemma resume_after_exit_two_terminals :
  kinds "u1" (Plugin.trace (Sample.run Sample.resumed_after_exit))
    = [KStart; KProgress; KProgress; KSuccess;
       KStart; KProgress; KProgress; KSuccess] ∧
  order (kinds "u1" (Plugin.trace (Sample.run Sample.resumed_after_exit)))
    = Broken.
Proof. vm_compute. done. Qed.



Lemma shouldFinish_one_more_chunk_witness :
  let st := @exec Sample.platform Sample.paused_then_aborted Plugin.init in
  let st' := @exec Sample.platform Sample.after_abort_retry st in
  (Runnable.shouldFinish <$> registered "u1" st) = Some true ∧
  chunks_by 0 (since st st') = 2%nat ∧
  attempts_by 0 (since st st') = 1%nat ∧
  chunks_per_attempt 0 (since st st') = [1; 1]%nat ∧
  ∃ n ns,
    chunks_per_attempt 0 (since st st') = n :: ns ∧
    (n ≤ budget AtPause)%nat ∧ Forall (λ n, (n ≤ 1)%nat) ns.
Proof.
  intros st st'.
  assert (Plugin.pool st !! 0%nat = Some {| t_id := "u1"; t_pc := AtPause |})
    as Hi by (vm_compute; reflexivity).
  assert (∃ e, registered "u1" st = Some e ∧ Runnable.shouldFinish e = true)
    as (e & He & Hfin) by (eexists; split; vm_compute; reflexivity).
  assert (@along Sample.platform fresh_uuid st Sample.after_abort_retry = true)
    as Hf by (vm_compute; reflexivity).
  split_and!; try (vm_compute; reflexivity).
  exact (proj1 (proj2 (@shouldFinish_one_more_chunk Sample.platform
                         Sample.after_abort_retry st 0%nat _ e Hi He Hfin Hf))).
Defined.

(** C4, where the claim fails: a paused session is aborted, [shouldFinish] is
    set; the wait of the loop reads the flag and is left, and the loop then
    sends a chunk before it ends and calls [finish]. *)
Lemma chunk_sent_after_shouldFinish :
  let st := Sample.run Sample.paused_then_aborted in
  let st' := @exec Sample.platform Sample.after_abort st in
  (Runnable.shouldFinish <$> registered "u1" st) = Some true ∧
  (t_pc <$> Plugin.pool st !! 0%nat) = Some AtPause ∧
  (t_pc <$> Plugin.pool (@step Sample.platform st (Work 0 Silent)) !! 0%nat)
    = Some AtProgress ∧
  chunks_by 0 (since st st') = 1%nat ∧
  (t_pc <$> Plugin.pool st' !! 0%nat) = Some AtSuccess.
Proof. vm_compute. done. Qed.

(** ** Further properties of the coordinator *)

Section Further.

Context `{Platform}.

Lemma bridge_keeps_registered a st id :
  bridge_command a = true →
  is_Some (Plugin.executorsMap st !! id) →
  is_Some (Plugin.executorsMap (step st a) !! id).
Proof.
  intros Ha Hid.
  destruct (bridge_cases a st Ha)
    as [-> | (id0 & e0 & e' & calls & _ & _ & _ & -> & _)]; [done |].
  apply lookup_insert_is_Some'. by right.
Qed.

Lemma step_keeps_registered st a id :
  is_Some (Plugin.executorsMap st !! id) →
  is_Some (Plugin.executorsMap (step st a) !! id).
Proof.
  intros Hid. destruct a as [options env | uploadId | uploadId | uploadId fin | j r].
  - simpl. destruct (upload_cases options env st)
      as [_ [[-> _] | (e0 & _ & _ & -> & _)]]; [done |].
    apply lookup_insert_is_Some'. by right.
  - by apply bridge_keeps_registered.
  - by apply bridge_keeps_registered.
  - by apply bridge_keeps_registered.
  - simpl. destruct (work_cases j r st) as [-> | (t & e0 & res & _ & _ & _ & ->)];
      [done |].
    simpl. apply lookup_insert_is_Some'. by right.
Qed.

(** X1.  No command and no step of a thread removes a session from the
    registry: an id that is registered stays registered in every schedule,
    also after its run has ended. *)
Theorem registry_never_shrinks (sched : list Action) (st : Plugin.State)
    (id : string) :
  is_Some (registered id st) → is_Some (registered id (exec sched st)).
Proof.
  unfold registered. revert st.
  induction sched as [| a sched IH]; intros st Hid; [done |].
  apply IH. by apply step_keeps_registered.
Qed.

Lemma flag_bridge a st id e :
  bridge_command a = true →
  Plugin.executorsMap st !! id = Some e →
  Runnable.shouldFinish e = true →
  ∃ e', Plugin.executorsMap (step st a) !! id = Some e' ∧
        Runnable.shouldFinish e' = true.
Proof.
  intros Ha He Hfin.
  destruct (bridge_cases a st Ha)
    as [-> | (id0 & e0 & e' & calls & He0 & (_ & _ & _ & Hm) & _ & -> & _)];
    [eauto |].
  destruct (decide (id0 = id)) as [-> | Hne].
  - rewrite lookup_insert_eq. exists e'. split; [done |]. apply Hm. congruence.
  - rewrite lookup_insert_ne by done. eauto.
Qed.

Lemma flag_step st a id e :
  Plugin.executorsMap st !! id = Some e →
  Runnable.shouldFinish e = true →
  fresh_uuid st a = true →
  ∃ e', Plugin.executorsMap (step st a) !! id = Some e' ∧
        Runnable.shouldFinish e' = true.
Proof.
  intros He Hfin Hfresh.
  destruct a as [options env | uploadId | uploadId | uploadId fin | j r].
  - simpl in *. destruct (upload_cases options env st)
      as [_ [[-> _] | (e0 & _ & _ & -> & _)]]; [eauto |].
    rewrite lookup_insert_ne; [eauto |].
    intros Heq. by rewrite Heq, He in Hfresh.
  - by apply (flag_bridge _ _ _ e).
  - by apply (flag_bridge _ _ _ e).
  - by apply (flag_bridge _ _ _ e).
  - simpl. destruct (work_cases j r st) as [-> | (t & e0 & res & _ & He0 & Hstep & ->)];
      [eauto |].
    simpl. destruct (decide (t_id t = id)) as [Heq | Hne].
    + rewrite Heq, lookup_insert_eq. exists (Runnable.session res).
      split; [done |]. rewrite Heq in He0.
      destruct (step_keeps_flags _ _ _ _ _ _ Hstep) as [-> _]. congruence.
    + rewrite lookup_insert_ne by done. eauto.
Qed.

(** X2.  [shouldFinish] is never cleared: once an abort has set it, it stays
    set whatever is called and whatever the threads do afterwards (the ids
    being fresh); a later resume, or a new run of the session, does not
    reset it. *)
Theorem shouldFinish_is_never_cleared (sched : list Action)
    (st : Plugin.State) (id : string) (e : Runnable.t) :
  registered id st = Some e →
  Runnable.shouldFinish e = true →
  along fresh_uuid st sched = true →
  ∃ e', registered id (exec sched st) = Some e' ∧
        Runnable.shouldFinish e' = true.
Proof.
  unfold registered. revert st e.
  induction sched as [| a sched IH]; intros st e He Hfin Hf; [eauto |].
  simpl in Hf. apply andb_true_iff in Hf as [Hf Hf'].
  destruct (flag_step st a id e He Hfin Hf) as (e' & He' & Hfin').
  exact (IH (step st a) e' He' Hfin' Hf').
Qed.

(** Everything a step of a thread shows carries the id of its session. *)
Lemma step_obs_id i inst r at_ e res o :
  Runnable.step i inst r at_ e = Some res →
  o ∈ Runnable.obs res → obs_id o = Runnable.uploadId e.
Proof. intros Hstep. step_cases Hstep; intros Hin; by obs_member. Qed.

Lemma obs_registered_bridge a st :
  bridge_command a = true →
  (∀ o, o ∈ Plugin.trace st →
        is_Some (Plugin.executorsMap (step st a) !! obs_id o)) →
  ∀ o, o ∈ Plugin.trace (step st a) →
       is_Some (Plugin.executorsMap (step st a) !! obs_id o).
Proof.
  intros Ha Hold.
  destruct (bridge_cases a st Ha)
    as [Hs | (id0 & e0 & e' & calls & _ & _ & _ & Hreg & Htr & _)].
  { by rewrite Hs in *. }
  intros o. rewrite Htr. intros [Ho | Ho]%elem_of_app; [by apply Hold |].
  apply list_elem_of_fmap in Ho as (c & -> & _). simpl.
  rewrite Hreg, lookup_insert_eq. eauto.
Qed.

Lemma obs_registered_step st a :
  keyed st →
  (∀ o, o ∈ Plugin.trace st → is_Some (Plugin.executorsMap st !! obs_id o)) →
  ∀ o, o ∈ Plugin.trace (step st a) →
       is_Some (Plugin.executorsMap (step st a) !! obs_id o).
Proof.
  intros Hkey Hst.
  assert (∀ o, o ∈ Plugin.trace st →
               is_Some (Plugin.executorsMap (step st a) !! obs_id o)) as Hold.
  { intros o Ho. apply step_keeps_registered. auto. }
  destruct a as [options env | uploadId | uploadId | uploadId fin | j r].
  - simpl in *. destruct (upload_cases options env st) as [Htr _].
    intros o. rewrite Htr. apply Hold.
  - by apply obs_registered_bridge.
  - by apply obs_registered_bridge.
  - by apply obs_registered_bridge.
  - simpl in *.
    destruct (work_cases j r st) as [Hw | (t & e0 & res & _ & He0 & Hstep & Hw)];
      rewrite Hw in *; [done |]. simpl in *.
    intros o [Ho | Ho]%elem_of_app; [by apply Hold |].
    rewrite (step_obs_id _ _ _ _ _ _ _ Hstep Ho), (Hkey _ _ He0).
    rewrite lookup_insert_eq. eauto.
Qed.

(** X3.  Whatever is called and whatever the threads do, every event sent to
    the listeners and every call made to the engine carries the upload id of
    a session that is in the registry: nothing is ever sent for an id that
    [upload] has not returned. *)
Theorem observations_are_of_registered_sessions (sched : list Action) (o : Obs) :
  o ∈ Plugin.trace (exec sched Plugin.init) →
  is_Some (registered (obs_id o) (exec sched Plugin.init)).
Proof.
  unfold registered.
  assert (∀ st, keyed st →
            (∀ o, o ∈ Plugin.trace st →
                  is_Some (Plugin.executorsMap st !! obs_id o)) →
            ∀ o, o ∈ Plugin.trace (exec sched st) →
                 is_Some (Plugin.executorsMap (exec sched st) !! obs_id o))
    as Hgen.
  { induction sched as [| a sched IH]; intros st Hkey Hst; [done |].
    apply IH; [by apply keyed_step | by apply obs_registered_step]. }
  apply Hgen; [apply keyed_init |]. by intros o' ?%elem_of_nil.
Qed.

Lemma frame_bridge a st id e :
  bridge_command a = true →
  Plugin.executorsMap st !! id = Some e →
  concerns id st a = false →
  Plugin.executorsMap (step st a) !! id = Some e.
Proof.
  destruct a as [| [id' |] | [id' |] | [id' |] fin |]; try done; intros _ He Hc;
    simpl in *.
  all: destruct (String.eqb_spec id' id) as [| Hne]; [done |].
  - unfold Plugin.pause. case_match; [| done]. simpl. by rewrite lookup_insert_ne.
  - unfold Plugin.resume. case_match; [| done].
    case_match; simpl; by rewrite lookup_insert_ne.
  - unfold Plugin.abort. case_match; [| done].
    repeat case_match; simpl; by rewrite lookup_insert_ne.
Qed.

(** X4.  The sessions are isolated from each other: a command on another
    upload id, an upload that takes another id, and a step of a thread of
    another session leave a session exactly as it is (flags, uploader,
    metadata). *)
Theorem other_sessions_untouched (st : Plugin.State) (a : Action) (id : string)
    (e : Runnable.t) :
  registered id st = Some e →
  concerns id st a = false →
  registered id (step st a) = Some e.
Proof.
  unfold registered. intros He Hc.
  destruct a as [options env | uploadId | uploadId | uploadId fin | j r].
  - simpl in *. destruct (upload_cases options env st)
      as [_ [[-> _] | (e0 & _ & _ & -> & _)]]; [done |].
    rewrite lookup_insert_ne; [done |].
    intros Heq. rewrite Heq, String.eqb_refl in Hc. done.
  - by apply frame_bridge.
  - by apply frame_bridge.
  - by apply frame_bridge.
  - simpl in *.
    destruct (work_cases j r st) as [-> | (t & e0 & res & Hj & _ & _ & ->)];
      [done |].
    simpl. rewrite Hj in Hc. rewrite lookup_insert_ne; [done |].
    intros Heq. rewrite Heq, String.eqb_refl in Hc. done.
Qed.

(** X5.  An upload call resolves exactly when the options are present, the
    uri is present and not empty, the endpoint is present, the stream of the
    uri opens, and the endpoint is a well-formed URL; in every other case it
    is rejected. *)
Theorem upload_resolves_iff (options : option UploadOptions) (env : UploadEnv)
    (st : Plugin.State) :
  (∃ st' data, Plugin.upload options env st = (st', Resolved data)) ↔
  ∃ o uri endpoint,
    options = Some o ∧ o_uri o = Some uri ∧ uri ≠ "" ∧
    o_endpoint o = Some endpoint ∧ openInputStream env = Opened ∧
    malformedURL endpoint = None.
Proof.
  split.
  - intros (st' & data & Hup). unfold Plugin.upload, Runnable.new in Hup.
    destruct options as [o |]; [| done].
    destruct (o_uri o) as [uri |] eqn:Huri; [| done].
    destruct (String.eqb_spec uri "") as [| Hne]; [done |].
    destruct (o_endpoint o) as [endpoint |] eqn:Hend; [| done].
    destruct (Config.getInstance (Plugin.instance st)) as [config inst].
    destruct (openInputStream env) eqn:Hopen; [| done | done].
    destruct (malformedURL endpoint) eqn:Hurl; [done |].
    by exists o, uri, endpoint.
  - intros (o & uri & endpoint & -> & Huri & Hne & Hend & Hopen & Hurl).
    unfold Plugin.upload, Runnable.new. rewrite Huri, Hend, Hopen, Hurl.
    destruct (String.eqb_spec uri "") as [| _]; [done |].
    destruct (Config.getInstance (Plugin.instance st)) as [config inst].
    simpl. eauto.
Qed.

(** X6.  What a resolved upload call has done: it returns the new id, it
    has registered under it a session that is not running, not paused, not
    finishing and has no uploader yet, with the endpoint and the headers of
    the request and the size the stream reported (zero if it could not), it
    has queued this session once at the end of the pool, it has sent no
    event, and every other session is as before. *)
Theorem upload_effect (options : UploadOptions) (env : UploadEnv)
    (st st' : Plugin.State) (data : list (string * JSValue)) :
  Plugin.upload (Some options) env st = (st', Resolved data) →
  data = [("uploadId", JSString (randomUUID env))] ∧
  Plugin.pool st'
    = (Plugin.pool st ++ [{| t_id := randomUUID env; t_pc := Queued |}])%list ∧
  Plugin.trace st' = Plugin.trace st ∧
  (∀ id, id ≠ randomUUID env → registered id st' = registered id st) ∧
  ∃ e, registered (randomUUID env) st' = Some e ∧
       Runnable.uploadId e = randomUUID env ∧
       Runnable.isRunning e = false ∧ Runnable.isPaused e = false ∧
       Runnable.shouldFinish e = false ∧ Runnable.uploader e = None ∧
       size (Runnable.upload e) = default 0 (available env) ∧
       Some (uploadCreationURL (Runnable.client e)) = o_endpoint options ∧
       headers (Runnable.client e) = default ∅ (o_headers options).
Proof.
  intros Hup. unfold Plugin.upload, Runnable.new, registered in *.
  repeat case_match; simplify_eq/=.
  all: split_and!; try done.
  all: try (intros id Hid; by rewrite lookup_insert_ne).
  all: eexists; split; [apply lookup_insert_eq |]; by split_and!.
Qed.

(** X7.  An upload call that fails one of the argument checks (no options;
    no uri or an empty one; no endpoint) is rejected with the message of
    that check, the uri being checked before the endpoint, and leaves the
    whole state as it was, the process-wide chunk size included, whatever
    chunkSize the request carries. *)
Theorem upload_argument_checks (options : option UploadOptions)
    (env : UploadEnv) (st : Plugin.State) :
  (options = None →
   Plugin.upload options env st
     = (st, Rejected "Missing options for the upload.")) ∧
  (∀ o, options = Some o → o_uri o = None ∨ o_uri o = Some "" →
        Plugin.upload options env st
          = (st, Rejected "The 'uri' provided is null or empty.")) ∧
  (∀ o uri, options = Some o → o_uri o = Some uri → uri ≠ "" →
            o_endpoint o = None →
            Plugin.upload options env st
              = (st, Rejected "Missing endpoint in options.")).
Proof.
  split_and!.
  - by intros ->.
  - intros o -> [Huri | Huri]; unfold Plugin.upload; by rewrite Huri.
  - intros o uri -> Huri Hne Hend. unfold Plugin.upload. rewrite Huri, Hend.
    by destruct (String.eqb_spec uri "").
Qed.

(** X8.  A request that passes the argument checks and carries a positive
    chunkSize changes the process-wide chunk size even when the call is
    rejected afterwards, because the stream does not open or the endpoint
    is not a well-formed URL: no session is created, none is queued, no
    event is sent, but later transfers use the chunk size of the rejected
    request. *)
Theorem rejected_upload_sets_chunkSize (options : UploadOptions)
    (env : UploadEnv) (st : Plugin.State) (uri endpoint : string) (c : Z) :
  o_uri options = Some uri → uri ≠ "" →
  o_endpoint options = Some endpoint →
  o_chunkSize options = Some c → 0 < c →
  openInputStream env ≠ Opened ∨ malformedURL endpoint ≠ None →
  ∃ st' msg,
    Plugin.upload (Some options) env st = (st', Rejected msg) ∧
    setting st' = c ∧
    Plugin.executorsMap st' = Plugin.executorsMap st ∧
    Plugin.pool st' = Plugin.pool st ∧
    Plugin.trace st' = Plugin.trace st.
Proof.
  intros Huri Hne Hend Hc Hpos Hfail.
  unfold Plugin.upload, Runnable.new. rewrite Huri, Hend, Hc.
  destruct (String.eqb_spec uri "") as [| _]; [done |].
  assert ((c >? 0) = true) as -> by lia.
  destruct (Config.getInstance (Plugin.instance st)) as [config inst].
  destruct (openInputStream env) eqn:Hopen.
  - destruct (malformedURL endpoint) eqn:Hurl; [| by destruct Hfail].
    by eexists _, _; split_and!.
  - by eexists _, _; split_and!.
  - by eexists _, _; split_and!.
Qed.

(** X9.  Pausing is idempotent: a second pause of the same upload id gives
    the answer and the state of the first, for a known id as for an unknown
    one. *)
Theorem pause_idempotent (uploadId : JString) (st : Plugin.State) :
  Plugin.pause uploadId (Plugin.pause uploadId st).1
    = Plugin.pause uploadId st.
Proof.
  unfold Plugin.pause. destruct uploadId as [id |]; [| done].
  destruct (Plugin.executorsMap st !! id) as [e |] eqn:He; simpl; [| by rewrite He].
  rewrite lookup_insert_eq. unfold Plugin.set_executor; simpl.
  by rewrite insert_insert_eq.
Qed.

(** X10.  Pause followed by resume on a session whose run is executing and
    that was not paused gives back the state before the pause: the session
    is not submitted a second time and no flag but [isPaused] was touched. *)
Theorem pause_then_resume_restores (id : string) (st : Plugin.State)
    (e : Runnable.t) :
  registered id st = Some e →
  Runnable.isRunning e = true → Runnable.isPaused e = false →
  (Plugin.resume (Some id) (Plugin.pause (Some id) st).1).1 = st.
Proof.
  unfold registered. intros He Hrun Hpaused.
  unfold Plugin.pause. rewrite He. simpl.
  unfold Plugin.resume. simpl. rewrite lookup_insert_eq.
  unfold Runnable.isRunning'. simpl. rewrite Hrun. simpl.
  destruct st as [inst reg pool tr]. unfold Plugin.set_executor; simpl in *.
  f_equal. rewrite insert_insert_eq. apply insert_id.
  rewrite He. f_equal. destruct e; simpl in *. by subst.
Qed.

(** X11.  While a session is paused and not finishing, its thread stays in
    the wait of the loop: whatever steps the thread takes (its sleep not
    being interrupted), the state does not change; no chunk is sent, no
    event is sent, the engine is not called. *)
Theorem paused_thread_waits (sched : list Action) (st : Plugin.State)
    (i : nat) (t : Task) (e : Runnable.t) :
  Plugin.pool st !! i = Some t → t_pc t = AtPause →
  registered (t_id t) st = Some e →
  Runnable.isPaused e = true → Runnable.shouldFinish e = false →
  Forall (waits i) sched →
  exec sched st = st.
Proof.
  unfold registered. intros Hi Hpc He Hpaused Hfin Hsched.
  induction Hsched as [| a sched (r & -> & Hr) _ IH]; [done |].
  change (exec (Work i r :: sched) st) with (exec sched (Plugin.work i r st)).
  assert (Plugin.work i r st = st) as ->; [| exact IH].
  unfold Plugin.work. rewrite Hi, He. unfold queued. rewrite Hpc. simpl.
  rewrite Hpaused, Hfin. destruct r; try done. simpl.
  destruct st as [inst reg pool tr]; simpl in *. f_equal.
  - by apply insert_id.
  - apply list_insert_id. rewrite Hi. f_equal. destruct t; simpl in *. by subst.
  - apply app_nil_r.
Qed.

(** X12.  Two sessions of the same source have different fingerprints as
    soon as their upload ids differ: the fingerprint ends with the upload
    id, so the engine never takes a new upload for the resumption of an
    earlier one of the same file. *)
Theorem fingerprints_differ (available1 available2 : option Z)
    (fileName : JString) (id1 id2 endpoint1 endpoint2 : string)
    (md1 md2 hd1 hd2 : JMap) (e1 e2 : Runnable.t) :
  Runnable.new available1 fileName id1 endpoint1 md1 hd1 = inr e1 →
  Runnable.new available2 fileName id2 endpoint2 md2 hd2 = inr e2 →
  id1 ≠ id2 →
  fingerprint (Runnable.upload e1) ≠ fingerprint (Runnable.upload e2).
Proof.
  intros H1 H2 Hne.
  destruct (new_fingerprint _ _ _ _ _ _ _ H1) as [-> _].
  destruct (new_fingerprint _ _ _ _ _ _ _ H2) as [-> _].
  intros Heq. apply Hne.
  apply (inj (String.app (str fileName))) in Heq.
  by apply (inj (String.app "-")) in Heq.
Qed.

Lemma work_stands st i id at_ e r res :
  stands st i id at_ e → at_ ≠ Queued →
  Runnable.step i (Plugin.instance st) r at_ e = Some res →
  stands (Plugin.work i r st) i id (Runnable.pc res) (Runnable.session res) ∧
  Plugin.trace (Plugin.work i r st) = (Plugin.trace st ++ Runnable.obs res)%list.
Proof.
  intros [Hi He] Hat Hstep. unfold Plugin.work, stands.
  rewrite Hi; simpl. rewrite He.
  replace (queued {| t_id := id; t_pc := at_ |}) with false by by destruct at_.
  simpl. rewrite Hstep; simpl. split_and!; [| apply lookup_insert_eq | done].
  apply list_lookup_insert_eq. by eapply lookup_lt_Some.
Qed.

(** X13.  Abort of a session whose thread waits in the loop ends the run
    with onSuccess: the thread leaves the wait, sends one more onProgress,
    sends one chunk, leaves the loop whatever the chunk call returned, calls
    [finish], sends onSuccess with the upload URL, and clears [isRunning];
    onError is not sent. *)
Theorem aborted_run_reports_success (st : Plugin.State) (i : nat)
    (id : string) (e : Runnable.t) (u : TusUploader) (n : Z) :
  stands st i id AtPause e →
  Runnable.shouldFinish e = true →
  Runnable.uploader e = Some u →
  let st' := exec [Work i Silent; Work i Silent; Work i (ChunkSent n);
                   Work i Silent; Work i Finished; Work i Silent;
                   Work i Silent] st in
  Plugin.trace st'
    = (Plugin.trace st ++
       [Notify (onProgress (Runnable.uploadId e)
                  (Runnable.progress (offset u) (size (Runnable.upload e)))
                  (offset u) (size (Runnable.upload e))
                  (metadata (Runnable.upload e)));
        Call (Worker i) (Runnable.uploadId e) UploadChunk;
        Call (Worker i) (Runnable.uploadId e) Finish;
        Notify (onSuccess (Runnable.uploadId e) (uploadURL u)
                  (metadata (Runnable.upload e)))])%list ∧
  ∃ e', stands st' i id Done e' ∧
        Runnable.isRunning e' = false ∧ Runnable.shouldFinish e' = true.
Proof.
  intros Hst Hfin Hu st'. subst st'. cbn [exec foldl step].
  destruct e as [up ? cl uid ? run paused]; simpl in *. subst.
  eapply (work_stands _ _ _ _ _ Silent) in Hst as [Hst Htr1];
    [| done | simpl; rewrite andb_false_r; reflexivity].
  eapply (work_stands _ _ _ _ _ Silent) in Hst as [Hst Htr2];
    [| done | reflexivity].
  eapply (work_stands _ _ _ _ _ (ChunkSent n)) in Hst as [Hst Htr3];
    [| done | reflexivity].
  eapply (work_stands _ _ _ _ _ Silent) in Hst as [Hst Htr4];
    [| done | simpl; rewrite andb_false_r; reflexivity].
  eapply (work_stands _ _ _ _ _ Finished) in Hst as [Hst Htr5];
    [| done | reflexivity].
  eapply (work_stands _ _ _ _ _ Silent) in Hst as [Hst Htr6];
    [| done | reflexivity].
  eapply (work_stands _ _ _ _ _ Silent) in Hst as [Hst7 Htr7];
    [| done | reflexivity].
  simpl in *. split.
  - rewrite Htr7, Htr6, Htr5, Htr4, Htr3, Htr2, Htr1.
    by rewrite !app_nil_r, <- !app_assoc.
  - eexists. split; [exact Hst7 | done].
Qed.

(** X14.  An exception of the engine (on creating or resuming the upload, on
    sending a chunk or on [finish]) after which no further attempt is made
    ends the run with onError: the event carries the message of the
    exception and the metadata, [isRunning] is cleared, and onSuccess is not
    sent.  When another attempt is made instead, the exception is not
    reported: the thread starts over at [resumeOrCreateUpload]. *)
Theorem failure_reports_error (st : Plugin.State) (i : nat) (id : string)
    (at_ : Pc) (e : Runnable.t) (c : EngineCall) (msg : JString) :
  stands st i id at_ e →
  pending_call at_ = Some c →
  (let st' := exec [Work i (Threw {| message := msg; retry := false |});
                    Work i Silent; Work i Silent] st in
   Plugin.trace st'
     = (Plugin.trace st ++
        [Call (Worker i) (Runnable.uploadId e) c;
         Notify (onError (Runnable.uploadId e) msg
                   (metadata (Runnable.upload e)))])%list ∧
   stands st' i id Done (Runnable.set_isRunning false e)) ∧
  (let st' := exec [Work i (Threw {| message := msg; retry := true |})] st in
   Plugin.trace st'
     = (Plugin.trace st ++ [Call (Worker i) (Runnable.uploadId e) c])%list ∧
   stands st' i id AtAttempt e).
Proof.
  intros Hst Hc. cbn [exec foldl step]. split.
  - eapply (work_stands _ _ _ _ _ (Threw {| message := msg; retry := false |}))
      in Hst as [Hst Htr1];
      [| by destruct at_ | destruct at_; simplify_eq/=; reflexivity].
    eapply (work_stands _ _ _ _ _ Silent) in Hst as [Hst Htr2];
      [| done | reflexivity].
    eapply (work_stands _ _ _ _ _ Silent) in Hst as [Hst Htr3];
      [| done | reflexivity].
    simpl in *. split; [| exact Hst].
    rewrite Htr3, Htr2, Htr1. by rewrite !app_nil_r, <- !app_assoc.
  - eapply (work_stands _ _ _ _ _ (Threw {| message := msg; retry := true |}))
      in Hst as [Hst Htr1];
      [| by destruct at_ | destruct at_; simplify_eq/=; reflexivity].
    simpl in *. by split.
Qed.

Lemma step_tracks i inst r id at_ e res :
  Runnable.step i inst r at_ e = Some res →
  Runnable.isRunning e = active {| t_id := id; t_pc := at_ |} →
  Runnable.isRunning (Runnable.session res)
    = active {| t_id := id; t_pc := Runnable.pc res |}.
Proof.
  intros Hstep. unfold active; simpl.
  step_cases Hstep; try done; by destruct (retry _).
Qed.

Lemma bridge_keeps_isRunning a st id e e' :
  bridge_command a = true →
  Plugin.executorsMap st !! id = Some e →
  Plugin.executorsMap (step st a) !! id = Some e' →
  Runnable.isRunning e' = Runnable.isRunning e.
Proof.
  destruct a as [| [id' |] | [id' |] | [id' |] fin |]; try done; intros _ He;
    simpl; try congruence.
  - unfold Plugin.pause. destruct (Plugin.executorsMap st !! id') eqn:He0;
      simpl; [| congruence].
    destruct (decide (id' = id)) as [-> | Hne].
    + rewrite lookup_insert_eq. intros [= <-]. simpl. congruence.
    + rewrite lookup_insert_ne by done. congruence.
  - unfold Plugin.resume. destruct (Plugin.executorsMap st !! id') eqn:He0;
      simpl; [| congruence].
    case_match; simpl.
    all: destruct (decide (id' = id)) as [-> | Hne];
      [rewrite lookup_insert_eq; intros [= <-]; simpl; congruence
      | rewrite lookup_insert_ne by done; congruence].
  - unfold Plugin.abort, Runnable.finish.
    destruct (Plugin.executorsMap st !! id') eqn:He0; simpl; [| congruence].
    repeat case_match; simplify_eq/=.
    all: destruct (decide (id' = id)) as [-> | Hne];
      [rewrite lookup_insert_eq; intros [= <-]; simpl; congruence
      | rewrite lookup_insert_ne by done; congruence].
Qed.

Lemma upload_new_session options env st :
  let st' := (Plugin.upload options env st).1 in
  (Plugin.executorsMap st' = Plugin.executorsMap st ∧
   Plugin.pool st' = Plugin.pool st) ∨
  ∃ e, Runnable.isRunning e = false ∧
       Plugin.executorsMap st'
         = <[randomUUID env := e]> (Plugin.executorsMap st) ∧
       Plugin.pool st'
         = (Plugin.pool st ++ [{| t_id := randomUUID env; t_pc := Queued |}])%list.
Proof.
  unfold Plugin.upload, Runnable.new.
  repeat case_match; simplify_eq/=; try by left.
  all: right; eexists; split_and!; try done; done.
Qed.

Lemma tracked_upload options env st :
  consistent st → tracked st →
  Plugin.executorsMap st !! randomUUID env = None →
  tracked (Plugin.upload options env st).1.
Proof.
  intros Hst Htr Hfresh j t e.
  destruct (upload_new_session options env st)
    as [[-> ->] | (e0 & Hrun & -> & ->)]; [apply Htr |].
  intros [Hj | [_ Hj]]%lookup_app_Some.
  - destruct (tasks_known st Hst j t Hj) as [e' He'].
    rewrite lookup_insert_ne by congruence. by apply (Htr j).
  - destruct (j - length (Plugin.pool st))%nat; simplify_eq/=.
    rewrite lookup_insert_eq. by intros [= <-].
Qed.

Lemma tracked_bridge a st :
  bridge_command a = true →
  tracked st → resume_while_running st a = true →
  tracked (step st a).
Proof.
  intros Ha Htr Hres j t e Hj He.
  assert (Plugin.pool st !! j = Some t) as Hj'.
  { destruct (bridge_cases a st Ha)
      as [Hs | (id & e0 & e' & calls & He0 & _ & _ & _ & _ & Hpool)].
    { by rewrite Hs in Hj. }
    destruct Hpool as [Hpool | (-> & Hrun & _)]; [by rewrite Hpool in Hj |].
    simpl in Hres. rewrite He0 in Hres. congruence. }
  assert (is_Some (Plugin.executorsMap st !! t_id t)) as [e0 He0].
  { destruct (Plugin.executorsMap st !! t_id t) as [e0 |] eqn:He0; [eauto |].
    destruct (bridge_cases a st Ha)
      as [Hs | (id & e1 & e' & calls & He1 & _ & _ & Hreg & _)].
    { rewrite Hs in He. congruence. }
    rewrite Hreg in He. apply lookup_insert_Some in He as [[Heq _] | [_ He]];
      congruence. }
  rewrite (bridge_keeps_isRunning a st _ e0 e Ha He0 He). by apply (Htr j).
Qed.

Lemma tracked_work i r st :
  consistent st → tracked st → tracked (Plugin.work i r st).
Proof.
  intros Hst Htr.
  destruct (work_cases i r st) as [-> | (ti & ei & res & Hi & Hei & Hstep & ->)];
    [done |].
  intros j t e; simpl.
  destruct (decide (i = j)) as [<- | Hne].
  - rewrite list_lookup_insert_eq by (by eapply lookup_lt_Some).
    intros [= <-]; simpl. rewrite lookup_insert_eq. intros [= <-].
    eapply step_tracks; [exact Hstep |].
    rewrite (Htr i ti ei Hi Hei). by destruct ti.
  - rewrite list_lookup_insert_ne by done. intros Hj.
    assert (t_id ti ≠ t_id t) as Hids.
    { intros Heq. apply Hne. eapply NoDup_lookup; [exact (one_task st Hst) | |].
      - by rewrite list_lookup_fmap, Hi.
      - by rewrite list_lookup_fmap, Hj; simpl; rewrite Heq. }
    rewrite lookup_insert_ne by done. by apply (Htr j).
Qed.

Lemma tracked_step st a :
  consistent st → tracked st →
  fresh_uuid st a = true → resume_while_running st a = true →
  tracked (step st a).
Proof.
  intros Hst Htr Hfresh Hres.
  destruct a as [options env | uploadId | uploadId | uploadId fin | i r].
  - apply tracked_upload; [done | done |]. simpl in Hfresh. by case_match.
  - by apply tracked_bridge.
  - by apply tracked_bridge.
  - by apply tracked_bridge.
  - by apply tracked_work.
Qed.

(** X15.  As long as the ids are fresh and no session is submitted twice,
    the flag [isRunning] of a session is set exactly while a pool thread is
    inside its [run()]: it is clear while the session waits in the queue of
    the pool and after [run()] has returned. *)
Theorem isRunning_tracks_thread (sched : list Action) (j : nat) (t : Task)
    (e : Runnable.t) :
  along fresh_uuid Plugin.init sched = true →
  along resume_while_running Plugin.init sched = true →
  let st := exec sched Plugin.init in
  Plugin.pool st !! j = Some t →
  registered (t_id t) st = Some e →
  Runnable.isRunning e = active t.
Proof.
  intros Hf Hr st. subst st.
  assert (∀ st, consistent st → tracked st →
                along fresh_uuid st sched = true →
                along resume_while_running st sched = true →
                tracked (exec sched st)) as Hgen.
  { clear Hf Hr. induction sched as [| a sched IH]; intros st Hst Htr Hf Hr;
      [done |].
    simpl in Hf, Hr.
    apply andb_true_iff in Hf as [Hf Hf'], Hr as [Hr Hr'].
    apply IH; [by apply consistent_step | by apply tracked_step | done | done]. }
  apply (Hgen Plugin.init consistent_init); [| done | done]. by intros ? ? ?.
Qed.

(** X17.  Resume clears [isPaused] and then submits the session to the pool
    again exactly when its flag [isRunning] is clear: a session whose run is
    executing, paused or not, is not submitted; a session whose run has not
    begun or has returned gets one more task at the end of the queue.  In
    both cases the call resolves, nothing is sent and the engine is not
    called. *)
Theorem resume_submits_iff_not_running (id : string) (st : Plugin.State)
    (e : Runnable.t) :
  registered id st = Some e →
  let st' := (Plugin.resume (Some id) st).1 in
  registered id st' = Some (Runnable.set_isPaused false e) ∧
  Plugin.trace st' = Plugin.trace st ∧
  Plugin.pool st'
    = (if Runnable.isRunning e then Plugin.pool st
       else Plugin.pool st ++ [{| t_id := id; t_pc := Queued |}])%list ∧
  ∃ data, (Plugin.resume (Some id) st).2 = Resolved data.
Proof.
  unfold registered, Plugin.resume. intros He. rewrite He.
  unfold Runnable.isRunning'; simpl. rewrite andb_true_r.
  destruct (Runnable.isRunning e); simpl; rewrite lookup_insert_eq; eauto 10.
Qed.

(** X18.  When [uploadChunk] returns -1 (no more data) the loop ends: the
    thread calls [finish] of the engine, sends onSuccess with the upload URL
    and the metadata, and clears [isRunning]; no further onProgress and no
    further chunk.  When it returns a number of bytes and [shouldFinish] is
    clear the thread goes back to the wait at the head of the loop. *)
Theorem loop_end (st : Plugin.State) (i : nat) (id : string) (n : Z)
    (e : Runnable.t) (u : TusUploader) :
  stands st i id (AtLoopCond n) e →
  Runnable.uploader e = Some u →
  (n ≤ -1 →
   let st' := exec [Work i Silent; Work i Finished; Work i Silent;
                    Work i Silent] st in
   Plugin.trace st'
     = (Plugin.trace st ++
        [Call (Worker i) (Runnable.uploadId e) Finish;
         Notify (onSuccess (Runnable.uploadId e) (uploadURL u)
                   (metadata (Runnable.upload e)))])%list ∧
   stands st' i id Done (Runnable.set_isRunning false e)) ∧
  (-1 < n → Runnable.shouldFinish e = false →
   let st' := exec [Work i Silent] st in
   Plugin.trace st' = Plugin.trace st ∧ stands st' i id AtPause e).
Proof.
  intros Hst Hu. cbn [exec foldl step]. split.
  - intros Hn. assert ((n >? -1) = false) as Hgt by lia.
    eapply (work_stands _ _ _ _ _ Silent) in Hst as [Hst Htr1];
      [| done | simpl; rewrite Hgt; reflexivity].
    eapply (work_stands _ _ _ _ _ Finished) in Hst as [Hst Htr2];
      [| done | reflexivity].
    eapply (work_stands _ _ _ _ _ Silent) in Hst as [Hst Htr3];
      [| done | simpl; rewrite Hu; reflexivity].
    eapply (work_stands _ _ _ _ _ Silent) in Hst as [Hst Htr4];
      [| done | reflexivity].
    simpl in *. split; [| exact Hst].
    rewrite Htr4, Htr3, Htr2, Htr1. by rewrite !app_nil_r, <- !app_assoc.
  - intros Hn Hfin. assert ((n >? -1) = true) as Hgt by lia.
    eapply (work_stands _ _ _ _ _ Silent) in Hst as [Hst Htr1];
      [| done | simpl; rewrite Hgt, Hfin; reflexivity].
    simpl in *. by rewrite app_nil_r in Htr1.
Qed.

End Further.

(** ** The further properties at concrete requests *)

Lemma registry_never_shrinks_witness :
  let st := Sample.run Sample.two_uploads in
  is_Some (registered "u1" st) ∧
  is_Some (registered "u1" (@exec Sample.platform (Sample.whole_run 0) st)).
Proof.
  intros st.
  assert (is_Some (registered "u1" st)) as Hreg
    by (eexists; vm_compute; reflexivity).
  split; [exact Hreg |].
  exact (@registry_never_shrinks Sample.platform (Sample.whole_run 0) st "u1"
           Hreg).
Defined.

Lemma shouldFinish_is_never_cleared_witness :
  let st := Sample.run Sample.paused_then_aborted in
  let sched := CallResume (Some "u1") :: Sample.after_abort in
  (Runnable.shouldFinish <$> registered "u1" st) = Some true ∧
  ∃ e', registered "u1" (@exec Sample.platform sched st) = Some e' ∧
        Runnable.shouldFinish e' = true.
Proof.
  intros st sched. split; [vm_compute; reflexivity |].
  assert (∃ e, registered "u1" st = Some e) as [e He]
    by (eexists; vm_compute; reflexivity).
  refine (@shouldFinish_is_never_cleared Sample.platform sched st "u1" e He
            _ eq_refl).
  assert ((Runnable.shouldFinish <$> registered "u1" st) = Some true) as Hfin
    by (vm_compute; reflexivity).
  rewrite He in Hfin. by injection Hfin.
Defined.

Lemma observations_are_of_registered_sessions_witness :
  let o := Notify (onStart "u1" {["filename" := Some "a.bin"]}) in
  o ∈ Plugin.trace (Sample.run Sample.in_loop) ∧
  is_Some (registered "u1" (Sample.run Sample.in_loop)).
Proof.
  intros o.
  assert (o ∈ Plugin.trace (Sample.run Sample.in_loop)) as Ho.
  { vm_compute. left. }
  split; [exact Ho |].
  exact (@observations_are_of_registered_sessions Sample.platform
           Sample.in_loop o Ho).
Defined.

Lemma other_sessions_untouched_witness :
  let st := Sample.run Sample.two_uploads in
  ∃ e, registered "u1" st = Some e ∧
       registered "u1" (@step Sample.platform st (CallPause (Some "u2")))
         = Some e.
Proof.
  intros st. eexists. split; [vm_compute; reflexivity |].
  exact (@other_sessions_untouched Sample.platform st (CallPause (Some "u2"))
           "u1" _ eq_refl eq_refl).
Defined.

Lemma upload_effect_witness :
  let options := Sample.options None None in
  let env := Sample.env "u1" (Some "a.bin") in
  let st' := (@Plugin.upload Sample.platform (Some options) env Plugin.init).1 in
  Plugin.pool st' = [{| t_id := "u1"; t_pc := Queued |}] ∧
  Plugin.trace st' = [].
Proof.
  intros options env st'.
  destruct (@upload_effect Sample.platform options env Plugin.init st'
              [("uploadId", JSString "u1")] eq_refl)
    as (_ & Hpool & Htr & _).
  split; [exact Hpool | exact Htr].
Defined.

Lemma rejected_upload_sets_chunkSize_witness :
  let options := Sample.options None (Some 1000) in
  let env := {| openInputStream := NullStream; available := None;
                query := None; randomUUID := "u1" |} in
  ∃ st' msg,
    @Plugin.upload Sample.platform (Some options) env Plugin.init
      = (st', Rejected msg) ∧
    setting st' = 1000 ∧
    Plugin.executorsMap st' = Plugin.executorsMap Plugin.init ∧
    Plugin.pool st' = Plugin.pool Plugin.init ∧
    Plugin.trace st' = Plugin.trace Plugin.init.
Proof.
  intros options env.
  apply (@rejected_upload_sets_chunkSize Sample.platform options env
           Plugin.init "content://media/7" "https://tus.example/files" 1000).
  - reflexivity.
  - discriminate.
  - reflexivity.
  - reflexivity.
  - lia.
  - left. discriminate.
Defined.

Lemma pause_then_resume_restores_witness :
  let st := Sample.run Sample.in_loop in
  (Runnable.isRunning <$> registered "u1" st) = Some true ∧
  (Runnable.isPaused <$> registered "u1" st) = Some false ∧
  (Plugin.resume (Some "u1") (Plugin.pause (Some "u1") st).1).1 = st.
Proof.
  intros st. split; [vm_compute; reflexivity |].
  split; [vm_compute; reflexivity |].
  assert (∃ e, registered "u1" st = Some e ∧ Runnable.isRunning e = true ∧
               Runnable.isPaused e = false) as (e & He & Hrun & Hpaused)
    by (eexists; split_and!; vm_compute; reflexivity).
  exact (pause_then_resume_restores "u1" st e He Hrun Hpaused).
Defined.

Lemma paused_thread_waits_witness :
  let st := Sample.run (Sample.in_loop ++ [CallPause (Some "u1")]) in
  let sched := [Work 0 Slept; Work 0 Silent; Work 0 Slept] in
  Forall (waits 0) sched ∧ @exec Sample.platform sched st = st.
Proof.
  intros st sched.
  assert (Forall (waits 0) sched) as Hsched.
  { repeat constructor; eexists; (split; [reflexivity | discriminate]). }
  split; [exact Hsched |].
  assert (∃ e, registered "u1" st = Some e ∧ Runnable.isPaused e = true ∧
               Runnable.shouldFinish e = false) as (e & He & Hpaused & Hfin)
    by (eexists; split_and!; vm_compute; reflexivity).
  exact (@paused_thread_waits Sample.platform sched st 0%nat
           {| t_id := "u1"; t_pc := AtPause |} e eq_refl eq_refl He Hpaused
           Hfin Hsched).
Defined.

Lemma fingerprints_differ_witness :
  ∃ e1 e2,
    @Runnable.new Sample.platform (Some 10) (Some "a.bin") "u1"
      "https://tus.example/files" ∅ ∅ = inr e1 ∧
    @Runnable.new Sample.platform (Some 10) (Some "a.bin") "u2"
      "https://tus.example/files" ∅ ∅ = inr e2 ∧
    fingerprint (Runnable.upload e1) ≠ fingerprint (Runnable.upload e2).
Proof.
  eexists _, _. split; [vm_compute; reflexivity |].
  split; [vm_compute; reflexivity |].
  apply (@fingerprints_differ Sample.platform (Some 10) (Some 10)
           (Some "a.bin") "u1" "u2" "https://tus.example/files"
           "https://tus.example/files" ∅ ∅ ∅ ∅);
    [vm_compute; reflexivity | vm_compute; reflexivity | discriminate].
Defined.

Lemma aborted_run_reports_success_witness :
  let st := Sample.run Sample.paused_then_aborted in
  let st' := @exec Sample.platform
               [Work 0 Silent; Work 0 Silent; Work 0 (ChunkSent 10);
                Work 0 Silent; Work 0 Finished; Work 0 Silent; Work 0 Silent]
               st in
  ∃ e', stands st' 0 "u1" Done e' ∧
        Runnable.isRunning e' = false ∧ Runnable.shouldFinish e' = true.
Proof.
  intros st st'.
  assert (∃ e u, stands st 0 "u1" AtPause e ∧
                 Runnable.shouldFinish e = true ∧
                 Runnable.uploader e = Some u) as (e & u & Hst & Hfin & Hu)
    by (eexists _, _; split_and!; [split |..]; vm_compute; reflexivity).
  exact (proj2 (@aborted_run_reports_success Sample.platform st 0%nat "u1" e u
                  10 Hst Hfin Hu)).
Defined.

Lemma failure_reports_error_witness :
  let st := Sample.run Sample.before_chunk in
  let st' := @exec Sample.platform
               [Work 0 (Threw {| message := Some "timeout"; retry := false |});
                Work 0 Silent; Work 0 Silent] st in
  ∃ e, stands st 0 "u1" AtChunk e ∧
       stands st' 0 "u1" Done (Runnable.set_isRunning false e).
Proof.
  intros st st'. eexists. split; [split; vm_compute; reflexivity |].
  match goal with
  | |- stands _ _ _ _ (Runnable.set_isRunning false ?e) =>
      assert (stands st 0 "u1" AtChunk e) as Hst
        by (split; vm_compute; reflexivity);
      exact (proj2 (proj1 (@failure_reports_error Sample.platform st 0%nat
                             "u1" AtChunk e UploadChunk (Some "timeout")
                             Hst eq_refl)))
  end.
Defined.

Lemma isRunning_tracks_thread_witness :
  ∃ e, registered "u1" (@exec Sample.platform Sample.paused_and_resumed
                          Plugin.init) = Some e ∧
       Runnable.isRunning e = false.
Proof.
  assert (∃ e, registered "u1" (@exec Sample.platform Sample.paused_and_resumed
                                  Plugin.init) = Some e) as [e He]
    by (eexists; vm_compute; reflexivity).
  exists e. split; [exact He |].
  assert (@along Sample.platform fresh_uuid Plugin.init
            Sample.paused_and_resumed = true) as Hf
    by (vm_compute; reflexivity).
  assert (@along Sample.platform resume_while_running Plugin.init
            Sample.paused_and_resumed = true) as Hr
    by (vm_compute; reflexivity).
  assert (Plugin.pool (@exec Sample.platform Sample.paused_and_resumed
                         Plugin.init) !! 0%nat
          = Some {| t_id := "u1"; t_pc := Done |})
    as Hj by (vm_compute; reflexivity).
  exact (@isRunning_tracks_thread Sample.platform Sample.paused_and_resumed
           0%nat {| t_id := "u1"; t_pc := Done |} e Hf Hr Hj He).
Defined.

Lemma resume_submits_iff_not_running_witness :
  let st := Sample.run Sample.finished in
  let st' := (Plugin.resume (Some "u1") st).1 in
  (Runnable.isRunning <$> registered "u1" st) = Some false ∧
  Plugin.pool st'
    = [{| t_id := "u1"; t_pc := Done |}; {| t_id := "u1"; t_pc := Queued |}].
Proof.
  intros st st'. split; [vm_compute; reflexivity |].
  assert (∃ e, registered "u1" st = Some e ∧ Runnable.isRunning e = false)
    as (e & He & Hrun) by (eexists; split; vm_compute; reflexivity).
  destruct (resume_submits_iff_not_running "u1" st e He) as (_ & _ & Hpool & _).
  rewrite Hrun in Hpool. exact Hpool.
Defined.

Lemma loop_end_witness :
  let st := Sample.run Sample.at_end_of_data in
  let st' := @exec Sample.platform
               [Work 0 Silent; Work 0 Finished; Work 0 Silent; Work 0 Silent]
               st in
  ∃ e, stands st 0 "u1" (AtLoopCond (-1)) e ∧
       stands st' 0 "u1" Done (Runnable.set_isRunning false e).
Proof.
  intros st st'. eexists. split; [split; vm_compute; reflexivity |].
  match goal with
  | |- stands _ _ _ _ (Runnable.set_isRunning false ?e) =>
      assert (stands st 0 "u1" (AtLoopCond (-1)) e) as Hst
        by (split; vm_compute; reflexivity);
      assert (∃ u, Runnable.uploader e = Some u) as [u Hu]
        by (eexists; vm_compute; reflexivity);
      assert (-1 ≤ -1) as Hn by lia;
      exact (proj2 (proj1 (@loop_end Sample.platform st 0%nat "u1" (-1) e u
                             Hst Hu) Hn))
  end.
Defined.
